(** * A set-associative cache level (cache.py)

    Shallow embedding of the [CacheLevel] class of [cache.py] and the
    properties of its address arithmetic, its access / evict / invalidate
    methods and its dirty-bit bookkeeping.

    Python integers are unbounded, so addresses and geometry are [Z];
    [//] and [%] are floor division and the matching remainder, which is
    what [Z.div] and [Z.modulo] compute for a non-zero divisor.  The
    per-set [OrderedDict] is an association list (order matters), the
    outer dictionaries are [gmap]s and the dirty sets are [gset]s.
    Methods run in a state-and-exception monad over the object [self]. *)

From stdpp Require Import gmap strings list fin_maps.

Open Scope Z_scope.

(** ** Python runtime fragments used by the class *)

Module Py.

Inductive exn : Type :=
| ZeroDivisionError
| KeyError (k : Z)
| StopIteration
| NameError (name : string).

Global Instance exn_eq_dec : EqDecision exn.
Proof. solve_decision. Defined.

(** [a // b] *)
Definition floordiv (a b : Z) : exn + Z :=
  if decide (b = 0) then inl ZeroDivisionError else inr (a `div` b).

(** [a % b] *)
Definition mod_ (a b : Z) : exn + Z :=
  if decide (b = 0) then inl ZeroDivisionError else inr (a `mod` b).

End Py.

(** [collections.OrderedDict] with integer keys and values: the front of
    the list is the oldest entry, the back the newest one. *)
Module OrderedDict.

Definition t : Type := list (Z * Z).

(** [k in d] *)
Definition contains (k : Z) (d : t) : bool :=
  bool_decide (k ∈ d.*1).

(** [d[k] = v]: an existing key keeps its position, a new one goes last. *)
Fixpoint setitem (k v : Z) (d : t) : t :=
  match d with
  | [] => [(k, v)]
  | (k', v') :: d' =>
      if decide (k' = k) then (k, v) :: d' else (k', v') :: setitem k v d'
  end.

(** The entries of [d] without key [k]. *)
Definition without (k : Z) (d : t) : t :=
  filter (λ kv, kv.1 ≠ k) d.

(** [d.pop(k)]: [None] stands for the [KeyError] of a missing key. *)
Definition pop (k : Z) (d : t) : option (Z * t) :=
  match list_find (λ kv, kv.1 = k) d with
  | Some (_, (_, v)) => Some (v, without k d)
  | None => None
  end.

(** [d.move_to_end(k)]: [None] stands for the [KeyError]. *)
Definition move_to_end (k : Z) (d : t) : option t :=
  match pop k d with
  | Some (v, d') => Some (d' ++ [(k, v)])
  | None => None
  end.

(** [next(iter(d.items()))]: [None] stands for [StopIteration]. *)
Definition first (d : t) : option (Z * Z) := head d.

(** [next(reversed(d.items()))] *)
Definition last (d : t) : option (Z * Z) := list.last d.

End OrderedDict.

(** ** The object state *)

(** Modelled from the spec: the base class [Level] of [utils] is not part
    of the sources.  Its reporting methods are pure notifications to an
    external collector; they are recorded here, in call order, in the
    [reports] field of the level that issued them. *)
Inductive report : Type :=
| Hit (address : Z)
| Miss (address : Z)
| Eviction (block_address : Z)
| Writeback (block_address : Z).

Global Instance report_eq_dec : EqDecision report.
Proof. solve_decision. Defined.

(** The attributes set by [__init__]; neighbouring levels are references
    (positions in the chain owned by the caller). *)
Record CacheLevel : Type := mkCacheLevel {
  level_name : string;
  higher_level : option nat;
  lower_level : option nat;
  size : Z;
  block_size : Z;
  associativity : Z;
  eviction_policy : string;
  write_policy : string;
  num_sets : Z;
  cache : gmap Z OrderedDict.t;
  dirty_bits : gmap Z (gset Z);
  reports : list report
}.

Definition set_cache (c : gmap Z OrderedDict.t) (s : CacheLevel) : CacheLevel :=
  mkCacheLevel (level_name s) (higher_level s) (lower_level s) (size s)
    (block_size s) (associativity s) (eviction_policy s) (write_policy s)
    (num_sets s) c (dirty_bits s) (reports s).

Definition set_dirty_bits (d : gmap Z (gset Z)) (s : CacheLevel) : CacheLevel :=
  mkCacheLevel (level_name s) (higher_level s) (lower_level s) (size s)
    (block_size s) (associativity s) (eviction_policy s) (write_policy s)
    (num_sets s) (cache s) d (reports s).

Definition set_reports (r : list report) (s : CacheLevel) : CacheLevel :=
  mkCacheLevel (level_name s) (higher_level s) (lower_level s) (size s)
    (block_size s) (associativity s) (eviction_policy s) (write_policy s)
    (num_sets s) (cache s) (dirty_bits s) r.

(** ** The method monad: state of [self] plus Python exceptions

    A raised exception keeps the state reached so far: Python does not
    roll back the mutations a method made before it raised. *)

Inductive Outcome (A : Type) : Type :=
| Ok (a : A) (s : CacheLevel)
| Raised (e : Py.exn) (s : CacheLevel).
Arguments Ok {A} a s.
Arguments Raised {A} e s.

Definition state_of {A} (o : Outcome A) : CacheLevel :=
  match o with Ok _ s => s | Raised _ s => s end.

Definition M (A : Type) : Type := CacheLevel → Outcome A.

Definition ret {A} (a : A) : M A := λ s, Ok a s.

Definition bind {A B} (m : M A) (k : A → M B) : M B :=
  λ s, match m s with
       | Ok a s' => k a s'
       | Raised e s' => Raised e s'
       end.

Definition raise {A} (e : Py.exn) : M A := λ s, Raised e s.

Definition gets {A} (f : CacheLevel → A) : M A := λ s, Ok (f s) s.

Definition modify (f : CacheLevel → CacheLevel) : M unit := λ s, Ok tt (f s).

Definition lift {A} (r : Py.exn + A) : M A :=
  match r with inl e => raise e | inr a => ret a end.

Declare Scope method_scope.
Delimit Scope method_scope with method.
Notation "x <- m ;; k" := (bind m (λ x, k))
  (at level 100, m at next level, right associativity) : method_scope.
Notation "m ;;; k" := (bind m (λ _, k))
  (at level 100, right associativity) : method_scope.
Notation "'when' b 'then' m" := (if b then m else ret tt)
  (at level 99, b at level 98, m at level 98) : method_scope.
Open Scope method_scope.

(** *** Attribute and container accesses of the methods *)

(** [self.cache[cache_index]] *)
Definition cache_getitem (cache_index : Z) : M OrderedDict.t :=
  λ s, match cache s !! cache_index with
       | Some d => Ok d s
       | None => Raised (Py.KeyError cache_index) s
       end.

(** [self.dirty_bits[cache_index]] *)
Definition dirty_getitem (cache_index : Z) : M (gset Z) :=
  λ s, match dirty_bits s !! cache_index with
       | Some d => Ok d s
       | None => Raised (Py.KeyError cache_index) s
       end.

(** The per-set containers are mutable objects held by the outer
    dictionaries: a mutation replaces the entry of the set. *)
Definition cache_store (cache_index : Z) (d : OrderedDict.t) : M unit :=
  modify (λ s, set_cache (<[cache_index := d]> (cache s)) s).

Definition dirty_store (cache_index : Z) (d : gset Z) : M unit :=
  modify (λ s, set_dirty_bits (<[cache_index := d]> (dirty_bits s)) s).

(** [self.dirty_bits[cache_index].add(tag)] *)
Definition dirty_add (cache_index tag : Z) : M unit :=
  d <- dirty_getitem cache_index ;;
  dirty_store cache_index ({[tag]} ∪ d).

(** [self.dirty_bits[cache_index].remove(tag)] *)
Definition dirty_remove (cache_index tag : Z) : M unit :=
  d <- dirty_getitem cache_index ;;
  if bool_decide (tag ∈ d) then dirty_store cache_index (d ∖ {[tag]})
  else raise (Py.KeyError tag).

(** [self.cache[cache_index].move_to_end(tag)] *)
Definition cache_move_to_end (cache_index tag : Z) : M unit :=
  d <- cache_getitem cache_index ;;
  match OrderedDict.move_to_end tag d with
  | Some d' => cache_store cache_index d'
  | None => raise (Py.KeyError tag)
  end.

(** [self.cache[cache_index][tag] = block_address] *)
Definition cache_setitem (cache_index tag block_address : Z) : M unit :=
  d <- cache_getitem cache_index ;;
  cache_store cache_index (OrderedDict.setitem tag block_address d).

(** [self.cache[cache_index].pop(tag)] *)
Definition cache_pop (cache_index tag : Z) : M unit :=
  d <- cache_getitem cache_index ;;
  match OrderedDict.pop tag d with
  | Some (_, d') => cache_store cache_index d'
  | None => raise (Py.KeyError tag)
  end.

(** Modelled from the spec: [report_hit], [report_miss], [report_eviction]
    and [report_writeback] are inherited from [Level], which is missing
    from the sources; each appends one notification. *)
Definition emit (r : report) : M unit :=
  modify (λ s, set_reports (reports s ++ [r]) s).

Definition report_hit (address : Z) : M unit := emit (Hit address).
Definition report_miss (address : Z) : M unit := emit (Miss address).
Definition report_eviction (block_address : Z) : M unit := emit (Eviction block_address).
Definition report_writeback (block_address : Z) : M unit := emit (Writeback block_address).

(** A name that is bound neither locally nor in the module. *)
Definition unbound_name (name : string) : M Z := raise (Py.NameError name).

(** ** The methods of [CacheLevel] *)

(** [__init__]: [super().__init__] stores the name and the neighbours,
    the body stores the geometry and builds one empty ordered dictionary
    and one empty dirty set per set index of [range(num_sets)]. *)
Definition __init__ (size block_size associativity : Z)
    (eviction_policy write_policy level_name : string)
    (higher_level lower_level : option nat) : Py.exn + CacheLevel :=
  match Py.floordiv size (block_size * associativity) with
  | inl e => inl e
  | inr num_sets =>
      inr (mkCacheLevel level_name higher_level lower_level
             size block_size associativity eviction_policy write_policy
             num_sets
             (list_to_map ((λ i, (i, [])) <$> seqZ 0 num_sets))
             (list_to_map ((λ i, (i, ∅)) <$> seqZ 0 num_sets))
             [])
  end.

Definition _calculate_index (address : Z) : M Z :=
  bs <- gets block_size ;;
  q <- lift (Py.floordiv address bs) ;;
  ns <- gets num_sets ;;
  lift (Py.mod_ q ns).

Definition _calculate_tag (address : Z) : M Z :=
  bs <- gets block_size ;;
  ns <- gets num_sets ;;
  lift (Py.floordiv address (bs * ns)).

Definition _calculate_block_address (address : Z) : M Z :=
  bs <- gets block_size ;;
  r <- lift (Py.mod_ address bs) ;;
  ret (address - r).

Definition _calculate_block_address_from_tag_index (tag cache_index : Z) : M Z :=
  ns <- gets num_sets ;;
  bs <- gets block_size ;;
  ret ((tag * ns + cache_index) * bs).

Definition is_dirty (block_address : Z) : M bool :=
  cache_index <- _calculate_index block_address ;;
  tag <- _calculate_tag block_address ;;
  d <- dirty_getitem cache_index ;;
  ret (bool_decide (tag ∈ d)).

Definition invalidate (block_address : Z) : M unit :=
  cache_index <- _calculate_index block_address ;;
  tag <- _calculate_tag block_address ;;
  od <- cache_getitem cache_index ;;
  when OrderedDict.contains tag od then (
    d <- dirty_getitem cache_index ;;
    (when bool_decide (tag ∈ d) then (
       report_writeback block_address ;;;
       dirty_remove cache_index tag)) ;;;
    cache_pop cache_index tag ;;;
    report_eviction block_address).

(** The victim selection of [evict]; [None] is the bare [return] of the
    final [else]. *)
Definition select_victim (cache_index : Z) : M (option Z) :=
  policy <- gets eviction_policy ;;
  if decide (policy = "FIFO") then
    od <- cache_getitem cache_index ;;
    match OrderedDict.first od with
    | Some (victim_block_tag, _) => ret (Some victim_block_tag)
    | None => raise Py.StopIteration
    end
  else if decide (policy = "LRU") then
    od <- cache_getitem cache_index ;;
    match OrderedDict.first od with
    | Some (victim_block_tag, _) => ret (Some victim_block_tag)
    | None => raise Py.StopIteration
    end
  else if decide (policy = "MRU") then
    od <- cache_getitem cache_index ;;
    match OrderedDict.last od with
    | Some (victim_block_tag, _) => ret (Some victim_block_tag)
    | None => raise Py.StopIteration
    end
  else ret None.

(** [evict].  The first computation of [evicted_block] reads the name
    [victim_tag], which no assignment of the method or of the module
    binds; the later one reads [victim_block_tag]. *)
Definition evict (cache_index : Z) : M unit :=
  sel <- select_victim cache_index ;;
  match sel with
  | None => ret tt
  | Some victim_block_tag =>
      victim_tag <- unbound_name "victim_tag" ;;
      evicted_block <- _calculate_block_address_from_tag_index victim_tag cache_index ;;
      d <- dirty_getitem cache_index ;;
      (when bool_decide (victim_block_tag ∈ d) then (
         report_writeback evicted_block ;;;
         dirty_remove cache_index victim_block_tag)) ;;;
      cache_pop cache_index victim_block_tag ;;;
      report_eviction evicted_block ;;;
      evicted_block <- _calculate_block_address_from_tag_index victim_block_tag cache_index ;;
      invalidate evicted_block
  end.

Definition access (operation : string) (address : Z) : M unit :=
  cache_index <- _calculate_index address ;;
  tag <- _calculate_tag address ;;
  block_address <- _calculate_block_address address ;;
  od <- cache_getitem cache_index ;;
  if OrderedDict.contains tag od then
    report_hit address ;;;
    policy <- gets eviction_policy ;;
    (when decide (policy = "LRU") then cache_move_to_end cache_index tag) ;;;
    when decide (operation = "W") then dirty_add cache_index tag
  else
    report_miss address ;;;
    od <- cache_getitem cache_index ;;
    assoc <- gets associativity ;;
    (when decide (assoc ≤ Z.of_nat (length od)) then evict cache_index) ;;;
    cache_setitem cache_index tag block_address ;;;
    when decide (operation = "W") then dirty_add cache_index tag.

(** A trace of accesses, as the driver issues them: an uncaught exception
    ends the run. *)
Fixpoint run (trace : list (string * Z)) : M unit :=
  match trace with
  | [] => ret tt
  | (operation, address) :: rest => access operation address ;;; run rest
  end.

(** ** A chain of levels

    The levels are objects owned by the caller; calling a method of the
    level at position [self] runs it on that object and leaves the others
    as the method left them.  No method of [CacheLevel] reads
    [higher_level] or [lower_level], so a call only touches [self]. *)
Definition call {A} (self : nat) (m : M A) (chain : list CacheLevel)
    : option (Py.exn + A) * list CacheLevel :=
  match chain !! self with
  | Some s =>
      match m s with
      | Ok a s' => (Some (inr a), <[self := s']> chain)
      | Raised e s' => (Some (inl e), <[self := s']> chain)
      end
  | None => (None, chain)
  end.

(** ** Observations used in the statements *)

(** The tags resident in a set, oldest first. *)
Definition resident_tags (cache_index : Z) (s : CacheLevel) : option (list Z) :=
  (λ od : OrderedDict.t, od.*1) <$> cache s !! cache_index.

(** Every set holds at most [associativity] tags. *)
Definition capacity_ok (s : CacheLevel) : Prop :=
  ∀ cache_index (od : OrderedDict.t),
    cache s !! cache_index = Some od → Z.of_nat (length od) ≤ associativity s.

Definition known_policy (p : string) : Prop :=
  p = "FIFO" ∨ p = "LRU" ∨ p = "MRU".

(** The invariant carried along a trace: a recognised policy and sets
    within capacity. *)
Definition within_capacity (s : CacheLevel) : Prop :=
  known_policy (eviction_policy s) ∧ capacity_ok s.

(** A method that only reads [self]. *)
Definition readonly {A} (m : M A) : Prop :=
  ∀ s, state_of (m s) = s.

(** A method keeps a property of the state whether it returns or raises. *)
Definition preserves (P : CacheLevel → Prop) {A} (m : M A) : Prop :=
  ∀ s, P s → P (state_of (m s)).

Definition writebacks_of (block_address : Z) (r : list report) : nat :=
  length (filter (λ x, x = Writeback block_address) r).

(** The attributes fixed at construction. *)
Definition configuration (s : CacheLevel)
    : string * option nat * option nat * Z * Z * Z * string * string * Z :=
  (level_name s, higher_level s, lower_level s, size s, block_size s,
   associativity s, eviction_policy s, write_policy s, num_sets s).

(** Positive geometry, and the containers of every set index in place. *)
Definition well_formed (s : CacheLevel) : Prop :=
  0 < block_size s ∧ 0 < num_sets s
  ∧ ∀ i, 0 ≤ i < num_sets s →
         is_Some (cache s !! i) ∧ is_Some (dirty_bits s !! i).

(** Every dirty tag of a set is resident in that set. *)
Definition dirty_resident (s : CacheLevel) : Prop :=
  ∀ i (od : OrderedDict.t) (d : gset Z),
    cache s !! i = Some od → dirty_bits s !! i = Some d →
    ∀ tag, tag ∈ d → tag ∈ od.*1.

(** The tag is resident in the set of that index. *)
Definition resident (cache_index tag : Z) (s : CacheLevel) : Prop :=
  ∃ od : OrderedDict.t, cache s !! cache_index = Some od ∧ tag ∈ od.*1.

(** ** Concrete levels used in the examples *)

(** A fresh level with [size=64], [block_size=16], [associativity=2]. *)
Definition fresh (policy : string) (lower : option nat) : CacheLevel :=
  mkCacheLevel "L1" None lower 64 16 2 policy "WB" 2
    {[ 0 := []; 1 := [] ]} {[ 0 := ∅; 1 := ∅ ]} [].

(** A fresh level below it: [size=128], same block size and ways. *)
Definition fresh_lower (policy : string) (higher : option nat) : CacheLevel :=
  mkCacheLevel "L2" higher None 128 16 2 policy "WB" 4
    {[ 0 := []; 1 := []; 2 := []; 3 := [] ]}
    {[ 0 := ∅; 1 := ∅; 2 := ∅; 3 := ∅ ]} [].

(** The state a trace leaves behind, whether it completed or raised. *)
Definition after (trace : list (string * Z)) (s : CacheLevel) : CacheLevel :=
  state_of (run trace s).

(** A two-level chain in which both levels hold block 0 and the lower
    level's copy is dirty. *)
Definition two_levels : list CacheLevel :=
  [ after [("R", 0)] (fresh "FIFO" (Some 1%nat));
    after [("W", 0)] (fresh_lower "FIFO" (Some 0%nat)) ].

(** ** The ordered dictionary *)

Lemma setitem_length (k v : Z) (d : OrderedDict.t) :
  (length (OrderedDict.setitem k v d) ≤ S (length d))%nat.
Proof.
  induction d as [|[k' v'] d IH]; cbn; [lia |].
  case_decide; cbn; lia.
Qed.

(** A new key is appended at the newest position. *)
Lemma setitem_new (k v : Z) (d : OrderedDict.t) :
  k ∉ d.*1 → OrderedDict.setitem k v d = d ++ [(k, v)].
Proof.
  induction d as [|[k' v'] d IH]; cbn; [done |].
  rewrite not_elem_of_cons. intros [Hne Hnin].
  case_decide; [congruence |]. by rewrite IH.
Qed.

Lemma without_length (k : Z) (d : OrderedDict.t) :
  k ∈ d.*1 → (length (OrderedDict.without k d) < length d)%nat.
Proof.
  unfold OrderedDict.without, OrderedDict.t.
  induction d as [|[k' v'] d IH].
  - intros Hin. by apply elem_of_nil in Hin.
  - rewrite fmap_cons, elem_of_cons, filter_cons. cbn [fst length].
    intros Hin. case_decide as Hk.
    + cbn [length]. destruct Hin as [->|Hin]; [done |].
      specialize (IH Hin). lia.
    + pose proof (length_filter (λ kv : Z * Z, kv.1 ≠ k) d). lia.
Qed.

Lemma move_to_end_resident (k : Z) (d : OrderedDict.t) :
  k ∈ d.*1 →
  ∃ d', OrderedDict.move_to_end k d = Some d'
        ∧ (length d' ≤ length d)%nat.
Proof.
  intros Hk. pose proof (without_length k d Hk) as Hlen.
  apply list_elem_of_fmap in Hk as [[k' v] [Hk Hin]]. cbn in Hk. subst k'.
  destruct (list_find_elem_of (λ kv : Z * Z, kv.1 = k) d (k, v) Hin eq_refl)
    as [[i [k'' v'']] E].
  unfold OrderedDict.move_to_end, OrderedDict.pop. rewrite E.
  eexists. split; [reflexivity |].
  rewrite length_app. cbn [length]. lia.
Qed.

Lemma move_to_end_length (k : Z) (d d' : OrderedDict.t) :
  OrderedDict.move_to_end k d = Some d' → (length d' ≤ length d)%nat.
Proof.
  unfold OrderedDict.move_to_end, OrderedDict.pop.
  destruct (list_find _ d) as [[i [k' v]]|] eqn:E; [| done].
  intros [= <-]. apply list_find_Some in E as (Hi & Hk & _). cbn in Hk.
  assert (k ∈ d.*1) as Hin.
  { apply list_elem_of_fmap. exists (k', v). split; [done |].
    by apply list_elem_of_lookup_2 in Hi. }
  pose proof (without_length k d Hin). rewrite length_app. cbn. lia.
Qed.

(** ** Stepping through a method body *)

Lemma bind_ok {A B} (m : M A) (k : A → M B) (s s' : CacheLevel) (a : A) :
  m s = Ok a s' → bind m k s = k a s'.
Proof. intros H. unfold bind. by rewrite H. Qed.

Lemma bind_raised {A B} (m : M A) (k : A → M B) (s s' : CacheLevel) (e : Py.exn) :
  m s = Raised e s' → bind m k s = Raised e s'.
Proof. intros H. unfold bind. by rewrite H. Qed.

Lemma gets_ok {A} (f : CacheLevel → A) (s : CacheLevel) :
  gets f s = Ok (f s) s.
Proof. reflexivity. Qed.

Lemma emit_ok (r : report) (s : CacheLevel) :
  emit r s = Ok tt (set_reports (reports s ++ [r]) s).
Proof. reflexivity. Qed.

Lemma cache_getitem_ok (i : Z) (s : CacheLevel) (od : OrderedDict.t) :
  cache s !! i = Some od → cache_getitem i s = Ok od s.
Proof. intros H. unfold cache_getitem. by rewrite H. Qed.

Lemma dirty_getitem_ok (i : Z) (s : CacheLevel) (d : gset Z) :
  dirty_bits s !! i = Some d → dirty_getitem i s = Ok d s.
Proof. intros H. unfold dirty_getitem. by rewrite H. Qed.

Lemma dirty_add_ok (i tag : Z) (s : CacheLevel) (d : gset Z) :
  dirty_bits s !! i = Some d →
  dirty_add i tag s
  = Ok tt (set_dirty_bits (<[i := {[tag]} ∪ d]> (dirty_bits s)) s).
Proof.
  intros H. unfold dirty_add.
  by rewrite (bind_ok _ _ _ _ _ (dirty_getitem_ok _ _ _ H)).
Qed.

Lemma cache_setitem_ok (i tag b : Z) (s : CacheLevel) (od : OrderedDict.t) :
  cache s !! i = Some od →
  cache_setitem i tag b s
  = Ok tt (set_cache (<[i := OrderedDict.setitem tag b od]> (cache s)) s).
Proof.
  intros H. unfold cache_setitem.
  by rewrite (bind_ok _ _ _ _ _ (cache_getitem_ok _ _ _ H)).
Qed.

Lemma cache_move_to_end_ok (i tag : Z) (s : CacheLevel) (od : OrderedDict.t) :
  cache s !! i = Some od → tag ∈ od.*1 →
  ∃ od', OrderedDict.move_to_end tag od = Some od'
         ∧ cache_move_to_end i tag s
           = Ok tt (set_cache (<[i := od']> (cache s)) s).
Proof.
  intros H Hin. destruct (move_to_end_resident tag od Hin) as (od' & E & _).
  exists od'. split; [done |]. unfold cache_move_to_end.
  rewrite (bind_ok _ _ _ _ _ (cache_getitem_ok _ _ _ H)). by rewrite E.
Qed.

Ltac mstep lem := erewrite bind_ok by (apply lem; eassumption); cbv beta.

(** ** Address arithmetic *)

Section Arithmetic.

Variable s : CacheLevel.
Hypothesis block_size_pos : 0 < block_size s.
Hypothesis num_sets_pos : 0 < num_sets s.

Lemma index_ok (a : Z) :
  _calculate_index a s = Ok ((a `div` block_size s) `mod` num_sets s) s.
Proof using block_size_pos num_sets_pos.
  unfold _calculate_index, bind, gets, lift, Py.floordiv, Py.mod_.
  case_decide; [lia |]. cbn. case_decide; [lia | reflexivity].
Qed.

Lemma tag_ok (a : Z) :
  _calculate_tag a s = Ok (a `div` (block_size s * num_sets s)) s.
Proof using block_size_pos num_sets_pos.
  unfold _calculate_tag, bind, gets, lift, Py.floordiv.
  case_decide; [nia | reflexivity].
Qed.

Lemma block_address_ok (a : Z) :
  _calculate_block_address a s = Ok (a - a `mod` block_size s) s.
Proof using block_size_pos.
  unfold _calculate_block_address, bind, gets, lift, Py.mod_.
  case_decide; [lia | reflexivity].
Qed.

Lemma from_tag_index_ok (tag cache_index : Z) :
  _calculate_block_address_from_tag_index tag cache_index s
  = Ok ((tag * num_sets s + cache_index) * block_size s) s.
Proof. reflexivity. Qed.

(** The block base is the block number times the block size. *)
Lemma block_base (a : Z) :
  a - a `mod` block_size s = block_size s * (a `div` block_size s).
Proof using block_size_pos. rewrite Z.mod_eq by lia. lia. Qed.

Lemma tag_index_recompose (a : Z) :
  a `div` (block_size s * num_sets s) * num_sets s
  + (a `div` block_size s) `mod` num_sets s
  = a `div` block_size s.
Proof using block_size_pos num_sets_pos.
  rewrite <- Z.div_div by lia.
  pose proof (Z.div_mod (a `div` block_size s) (num_sets s)). lia.
Qed.

Lemma block_number_of_base (a : Z) :
  (a - a `mod` block_size s) `div` block_size s = a `div` block_size s.
Proof using block_size_pos.
  rewrite block_base, Z.mul_comm. apply Z.div_mul. lia.
Qed.

Lemma tag_of_base (a : Z) :
  (a - a `mod` block_size s) `div` (block_size s * num_sets s)
  = a `div` (block_size s * num_sets s).
Proof using block_size_pos num_sets_pos.
  rewrite <- !Z.div_div by lia. by rewrite block_number_of_base.
Qed.

End Arithmetic.

(** C1: with a positive block size and at least one set, rebuilding the
    block address from the tag and the set index of any address [a] gives
    exactly the block address of [a]; none of the four computations raises.
    (The statement holds for all integers, in particular for the
    non-negative addresses the level receives.) *)
Theorem address_round_trip (s : CacheLevel) (a : Z) :
  0 < block_size s → 0 < num_sets s →
  ∃ tag cache_index block_address,
    _calculate_tag a s = Ok tag s
    ∧ _calculate_index a s = Ok cache_index s
    ∧ _calculate_block_address a s = Ok block_address s
    ∧ _calculate_block_address_from_tag_index tag cache_index s
      = Ok block_address s.
Proof.
  intros Hbs Hns. eexists _, _, _.
  split; [by apply tag_ok |].
  split; [by apply index_ok |].
  split; [by apply block_address_ok |].
  rewrite from_tag_index_ok, tag_index_recompose, block_base by done.
  f_equal. lia.
Qed.

Lemma address_round_trip_witness :
  0 < block_size (fresh "FIFO" None) ∧ 0 < num_sets (fresh "FIFO" None)
  ∧ ∃ tag cache_index block_address,
      _calculate_tag 40 (fresh "FIFO" None) = Ok tag (fresh "FIFO" None)
      ∧ _calculate_index 40 (fresh "FIFO" None) = Ok cache_index (fresh "FIFO" None)
      ∧ _calculate_block_address 40 (fresh "FIFO" None)
        = Ok block_address (fresh "FIFO" None)
      ∧ _calculate_block_address_from_tag_index tag cache_index (fresh "FIFO" None)
        = Ok block_address (fresh "FIFO" None).
Proof.
  split; [reflexivity |]. split; [reflexivity |].
  apply (address_round_trip (fresh "FIFO" None) 40); reflexivity.
Defined.

(** C10: with a positive block size, at least one set and the dirty set
    of the addressed set in place, [is_dirty] returns, for an address and
    for the base address of the block that contains it (aligned or not),
    the same boolean. *)
Theorem is_dirty_of_containing_block (s : CacheLevel) (a : Z) (d : gset Z) :
  0 < block_size s → 0 < num_sets s →
  dirty_bits s !! ((a `div` block_size s) `mod` num_sets s) = Some d →
  ∃ block_address b,
    _calculate_block_address a s = Ok block_address s
    ∧ is_dirty a s = Ok b s
    ∧ is_dirty block_address s = Ok b s.
Proof.
  intros Hbs Hns Hd. eexists _, _. split; [by apply block_address_ok |].
  unfold is_dirty. split.
  - mstep index_ok. mstep tag_ok. mstep dirty_getitem_ok. reflexivity.
  - mstep index_ok. mstep tag_ok.
    rewrite block_number_of_base, tag_of_base by done.
    mstep dirty_getitem_ok. reflexivity.
Qed.

Lemma is_dirty_of_containing_block_witness :
  0 < block_size (after [("W", 40)] (fresh "LRU" None))
  ∧ 0 < num_sets (after [("W", 40)] (fresh "LRU" None))
  ∧ dirty_bits (after [("W", 40)] (fresh "LRU" None)) !! ((45 `div` 16) `mod` 2)
    = Some {[1]}
  ∧ ∃ block_address b,
      _calculate_block_address 45 (after [("W", 40)] (fresh "LRU" None))
      = Ok block_address (after [("W", 40)] (fresh "LRU" None))
      ∧ is_dirty 45 (after [("W", 40)] (fresh "LRU" None))
        = Ok b (after [("W", 40)] (fresh "LRU" None))
      ∧ is_dirty block_address (after [("W", 40)] (fresh "LRU" None))
        = Ok b (after [("W", 40)] (fresh "LRU" None)).
Proof.
  split; [reflexivity |]. split; [reflexivity |]. split; [reflexivity |].
  apply (is_dirty_of_containing_block (after [("W", 40)] (fresh "LRU" None)) 45 {[1]});
    reflexivity.
Defined.

Lemma fresh_constructed (policy : string) (lower : option nat) :
  __init__ 64 16 2 policy "WB" "L1" None lower = inr (fresh policy lower).
Proof. reflexivity. Qed.

Lemma fresh_lower_constructed (policy : string) (higher : option nat) :
  __init__ 128 16 2 policy "WB" "L2" higher None = inr (fresh_lower policy higher).
Proof. reflexivity. Qed.

(** ** Victim selection and eviction *)

Lemma select_victim_state (cache_index : Z) (s : CacheLevel) :
  state_of (select_victim cache_index s) = s.
Proof.
  unfold select_victim, bind, gets, cache_getitem.
  repeat case_decide; try done;
    destruct (cache s !! cache_index) as [od|]; try done.
  - by destruct (OrderedDict.first od) as [[??]|].
  - by destruct (OrderedDict.first od) as [[??]|].
  - by destruct (OrderedDict.last od) as [[??]|].
Qed.

Lemma select_victim_known (cache_index : Z) (s : CacheLevel) :
  known_policy (eviction_policy s) →
  (∃ e, select_victim cache_index s = Raised e s)
  ∨ (∃ victim, select_victim cache_index s = Ok (Some victim) s).
Proof.
  intros Hp. unfold select_victim, bind, gets, cache_getitem.
  repeat case_decide.
  4: { destruct Hp as [?|[?|?]]; congruence. }
  all: destruct (cache s !! cache_index) as [od|]; [| left; by eexists].
  - destruct (OrderedDict.first od) as [[??]|]; [right | left]; by eexists.
  - destruct (OrderedDict.first od) as [[??]|]; [right | left]; by eexists.
  - destruct (OrderedDict.last od) as [[??]|]; [right | left]; by eexists.
Qed.

Lemma select_victim_nonempty (cache_index : Z) (s : CacheLevel) (od : OrderedDict.t) :
  known_policy (eviction_policy s) →
  cache s !! cache_index = Some od → od ≠ [] →
  ∃ victim, select_victim cache_index s = Ok (Some victim) s.
Proof.
  intros Hp Hod Hne.
  assert (is_Some (OrderedDict.first od)) as [[v1 ?] Hf].
  { destruct od; [done | by eexists]. }
  assert (is_Some (OrderedDict.last od)) as [[v2 ?] Hl].
  { unfold OrderedDict.last. destruct (list.last od) eqn:E; [by eexists |].
    by apply last_None in E. }
  unfold select_victim, bind, gets, cache_getitem.
  repeat case_decide; rewrite ?Hod, ?Hf, ?Hl; try by eexists.
  destruct Hp as [?|[?|?]]; congruence.
Qed.

Lemma select_victim_unknown (cache_index : Z) (s : CacheLevel) :
  ¬ known_policy (eviction_policy s) →
  select_victim cache_index s = Ok None s.
Proof.
  intros Hp. unfold select_victim, bind, gets, known_policy in *.
  repeat case_decide; tauto.
Qed.

(** Under FIFO, LRU or MRU [evict] never returns: it raises before it
    changes anything. *)
Lemma evict_known_raises (cache_index : Z) (s : CacheLevel) :
  known_policy (eviction_policy s) →
  ∃ e, evict cache_index s = Raised e s.
Proof.
  intros Hp. unfold evict, bind.
  destruct (select_victim_known cache_index s Hp) as [[e ->]|[v ->]];
    by eexists.
Qed.

Lemma evict_unknown_noop (cache_index : Z) (s : CacheLevel) :
  ¬ known_policy (eviction_policy s) →
  evict cache_index s = Ok tt s.
Proof.
  intros Hp. unfold evict, bind. by rewrite select_victim_unknown.
Qed.

(** C3 (not met by the code): eviction does fail. Whenever the policy is
    FIFO, LRU or MRU and the set holds at least one block, [evict] raises
    [NameError] for the unbound name [victim_tag] and removes nothing: the
    state, reports included, is the one it was called in. *)
Theorem evict_raises_name_error (cache_index : Z) (s : CacheLevel) (od : OrderedDict.t) :
  known_policy (eviction_policy s) →
  cache s !! cache_index = Some od → od ≠ [] →
  evict cache_index s = Raised (Py.NameError "victim_tag") s.
Proof.
  intros Hp Hod Hne. unfold evict, bind.
  by destruct (select_victim_nonempty cache_index s od Hp Hod Hne) as [v ->].
Qed.

Lemma evict_raises_name_error_witness :
  known_policy (eviction_policy (after [("R", 0); ("R", 32)] (fresh "FIFO" None)))
  ∧ cache (after [("R", 0); ("R", 32)] (fresh "FIFO" None)) !! 0
    = Some [(0, 0); (1, 32)]
  ∧ evict 0 (after [("R", 0); ("R", 32)] (fresh "FIFO" None))
    = Raised (Py.NameError "victim_tag")
        (after [("R", 0); ("R", 32)] (fresh "FIFO" None)).
Proof.
  split; [left; reflexivity |]. split; [reflexivity |].
  apply (evict_raises_name_error 0 _ [(0, 0); (1, 32)]);
    [left; reflexivity | reflexivity | discriminate].
Defined.

(** ** The worked traces *)

(** Evaluation of a closed trace. *)
Ltac evaluate := vm_compute; reflexivity.

(** C2, as the code behaves: on the fresh FIFO level with [size=64],
    [block_size=16], [associativity=2], the accesses to 0, 16 and 32
    complete and report three misses and nothing else.  Addresses 0 and 32
    fill the two ways of set 0 (tags 0 and 1), address 16 sits alone in
    set 1, so the third access evicts nothing. *)
Theorem example_trace_three_misses :
  __init__ 64 16 2 "FIFO" "WB" "L1" None None = inr (fresh "FIFO" None)
  ∧ ∃ s', run [("R", 0); ("R", 16); ("R", 32)] (fresh "FIFO" None) = Ok tt s'
      ∧ reports s' = [Miss 0; Miss 16; Miss 32]
      ∧ cache s' !! 0 = Some [(0, 0); (1, 32)]
      ∧ cache s' !! 1 = Some [(0, 16)].
Proof.
  split; [reflexivity |].
  eexists. split; [evaluate |]. repeat split.
Qed.

(** C2 as specified does not hold: no eviction of the block at address 0
    is reported by the trace 0, 16, 32. *)
Lemma example_trace_reports_no_eviction :
  ¬ (Eviction 0 ∈ reports (after [("R", 0); ("R", 16); ("R", 32)] (fresh "FIFO" None))).
Proof.
  assert (reports (after [("R", 0); ("R", 16); ("R", 32)] (fresh "FIFO" None))
          = [Miss 0; Miss 16; Miss 32]) as -> by evaluate.
  rewrite !elem_of_cons, elem_of_nil. intros [?|[?|[?|[]]]]; discriminate.
Qed.

(** C4 (not met by the code): a block refill does disturb the order. On an
    LRU level whose set 0 holds tags 0 and 1 in that order, a 'B' access
    to address 0 hits and moves tag 0 to the back of the order, exactly as
    a read does. *)
Theorem block_refill_hit_reorders_under_LRU :
  resident_tags 0 (after [("R", 0); ("R", 32)] (fresh "LRU" None)) = Some [0; 1]
  ∧ ∃ s', access "B" 0 (after [("R", 0); ("R", 32)] (fresh "LRU" None)) = Ok tt s'
      ∧ reports s' = [Miss 0; Miss 32; Hit 0]
      ∧ resident_tags 0 s' = Some [1; 0]
      ∧ access "R" 0 (after [("R", 0); ("R", 32)] (fresh "LRU" None)) = Ok tt s'.
Proof.
  split; [evaluate |].
  eexists. split; [evaluate |]. repeat split.
Qed.

(** C8 (not met by the code): no writeback precedes the eviction. After a
    write to address 0 and a read of 32, the read of 64 needs the way of
    block 0 (FIFO victim); [evict] raises [NameError] before it reports
    anything, so no writeback is ever reported, block 0 stays resident and
    [is_dirty] still answers true for it. *)
Theorem dirty_victim_is_never_written_back :
  ∃ s', run [("W", 0); ("R", 32); ("R", 64)] (fresh "FIFO" None)
        = Raised (Py.NameError "victim_tag") s'
      ∧ reports s' = [Miss 0; Miss 32; Miss 64]
      ∧ writebacks_of 0 (reports s') = 0%nat
      ∧ resident_tags 0 s' = Some [0; 1]
      ∧ is_dirty 0 s' = Ok true s'.
Proof.
  eexists. split; [evaluate |]. repeat split.
Qed.

(** A method call on one level of a chain leaves every other level as it
    was. *)
Lemma call_leaves_other_levels {A} (self other : nat) (m : M A)
    (chain : list CacheLevel) :
  other ≠ self → (call self m chain).2 !! other = chain !! other.
Proof.
  intros Hne. unfold call. destruct (chain !! self) as [s|]; [| done].
  destruct (m s); cbn; by rewrite list_lookup_insert_ne.
Qed.

(** C7 (not met by the code): invalidation does not go downward. In a
    chain where the upper level names the lower one as its [lower_level]
    and both hold block 0, dirty below, invalidating block 0 at the upper
    level removes it there and reports that eviction, while the lower
    level is left exactly as it was: block 0 still resident and dirty, no
    writeback, no eviction. *)
Theorem invalidate_leaves_lower_level_alone :
  ∃ upper lower upper',
    two_levels = [upper; lower]
    ∧ lower_level upper = Some 1%nat
    ∧ resident_tags 0 upper = Some [0]
    ∧ resident_tags 0 lower = Some [0]
    ∧ is_dirty 0 lower = Ok true lower
    ∧ reports lower = [Miss 0]
    ∧ call 0 (invalidate 0) two_levels = (Some (inr tt), [upper'; lower])
    ∧ resident_tags 0 upper' = Some []
    ∧ reports upper' = [Miss 0; Eviction 0].
Proof.
  eexists _, _, _. split; [reflexivity |].
  do 5 (split; [evaluate |]).
  split; [evaluate |]. split; reflexivity.
Qed.

(** ** Construction *)

Lemma keys_of_constant_sets {V} (v : V) (l : list Z) :
  ((λ i, (i, v)) <$> l).*1 = l.
Proof. induction l as [|i l IH]; [done |]. cbn. by rewrite IH. Qed.

Lemma init_sets_lookup {V} (v : V) (n i : Z) :
  (list_to_map ((λ i, (i, v)) <$> seqZ 0 n) : gmap Z V) !! i
  = if decide (0 ≤ i < n) then Some v else None.
Proof.
  case_decide as Hi.
  - apply elem_of_list_to_map_1.
    + rewrite keys_of_constant_sets. apply NoDup_seqZ.
    + apply list_elem_of_fmap. exists i. split; [done |].
      apply elem_of_seqZ. lia.
  - apply not_elem_of_list_to_map_1.
    rewrite keys_of_constant_sets, elem_of_seqZ. lia.
Qed.

(** C6, as the code behaves: [__init__] makes no divisibility check.
    Whenever [block_size * associativity] is not zero the construction
    succeeds, [num_sets] is the floor of the quotient, and the sets
    [0 .. num_sets-1], and no others, exist, empty and clean.  With a
    positive product the truncation loses the remainder of [size]. *)
Theorem init_truncates (size block_size associativity : Z)
    (eviction_policy write_policy level_name : string)
    (higher_level lower_level : option nat) :
  block_size * associativity ≠ 0 →
  ∃ s, __init__ size block_size associativity eviction_policy write_policy
         level_name higher_level lower_level = inr s
     ∧ num_sets s = size `div` (block_size * associativity)
     ∧ (0 < block_size * associativity →
        num_sets s * (block_size * associativity)
        = size - size `mod` (block_size * associativity))
     ∧ (∀ i, cache s !! i = if decide (0 ≤ i < num_sets s) then Some [] else None)
     ∧ (∀ i, dirty_bits s !! i = if decide (0 ≤ i < num_sets s) then Some ∅ else None)
     ∧ reports s = [].
Proof.
  intros Hne. unfold __init__, Py.floordiv.
  case_decide; [done |]. eexists. split; [reflexivity |]. cbn.
  split; [done |].
  split. { intros Hpos. rewrite Z.mod_eq by lia. lia. }
  split; [| split; [| done]]; intros i; apply init_sets_lookup.
Qed.

Lemma init_truncates_witness :
  16 * 2 ≠ 0
  ∧ ∃ s, __init__ 100 16 2 "FIFO" "WB" "L1" None None = inr s
     ∧ num_sets s = 100 `div` (16 * 2)
     ∧ (0 < 16 * 2 → num_sets s * (16 * 2) = 100 - 100 `mod` (16 * 2))
     ∧ (∀ i, cache s !! i = if decide (0 ≤ i < num_sets s) then Some [] else None)
     ∧ (∀ i, dirty_bits s !! i = if decide (0 ≤ i < num_sets s) then Some ∅ else None)
     ∧ reports s = [].
Proof.
  split; [discriminate |].
  apply (init_truncates 100 16 2 "FIFO" "WB" "L1" None None). discriminate.
Defined.

(** C6 as specified does not hold: a size of 100 is not a multiple of 16 *
    2, yet the construction succeeds and keeps three sets (96 bytes). *)
Lemma init_accepts_uneven_geometry :
  100 `mod` (16 * 2) ≠ 0
  ∧ ∃ s, __init__ 100 16 2 "FIFO" "WB" "L1" None None = inr s ∧ num_sets s = 3.
Proof.
  split; [discriminate |]. eexists. split; reflexivity.
Qed.

(** ** Operation codes and completion of [access] *)

(** Only the comparison with 'W' looks at the operation code. *)
Lemma access_reads_unless_write (operation : string) (a : Z) (s : CacheLevel) :
  operation ≠ "W" → access operation a s = access "R" a s.
Proof.
  intros Hop. unfold access.
  destruct (decide (operation = "W")) as [|_]; [done |].
  destruct (decide ("R" = "W")) as [|_]; [done |].
  reflexivity.
Qed.

(** With room in the set, or the block already resident, nothing in
    [access] raises. *)
Lemma access_completes (operation : string) (a : Z) (s : CacheLevel)
    (od : OrderedDict.t) (d : gset Z) :
  0 < block_size s → 0 < num_sets s →
  cache s !! ((a `div` block_size s) `mod` num_sets s) = Some od →
  dirty_bits s !! ((a `div` block_size s) `mod` num_sets s) = Some d →
  a `div` (block_size s * num_sets s) ∈ od.*1
  ∨ Z.of_nat (length od) < associativity s →
  ∃ s', access operation a s = Ok tt s'.
Proof.
  intros Hbs Hns Hod Hd Hroom. unfold access.
  mstep index_ok. mstep tag_ok. mstep block_address_ok. mstep cache_getitem_ok.
  unfold OrderedDict.contains. case_bool_decide as Hin.
  - unfold report_hit. mstep emit_ok. mstep @gets_ok.
    cbn [eviction_policy set_reports].
    case_decide.
    + destruct (cache_move_to_end_ok _ _ (set_reports (reports s ++ [Hit a]) s) od Hod Hin)
        as (od' & _ & ->%(bind_ok _ (λ _, _))).
      case_decide; [| by eexists].
      erewrite dirty_add_ok by exact Hd. by eexists.
    + erewrite bind_ok by reflexivity. cbv beta.
      case_decide; [| by eexists].
      erewrite dirty_add_ok by exact Hd. by eexists.
  - destruct Hroom as [? | Hroom]; [done |].
    unfold report_miss. mstep emit_ok.
    erewrite bind_ok by (apply cache_getitem_ok; exact Hod). cbv beta.
    mstep @gets_ok. cbn [associativity set_reports].
    case_decide; [lia |].
    erewrite bind_ok by reflexivity. cbv beta.
    erewrite bind_ok by (apply cache_setitem_ok; exact Hod). cbv beta.
    case_decide; [| by eexists].
    erewrite dirty_add_ok by exact Hd. by eexists.
Qed.

(** C5, as the code behaves: [access] never inspects the operation code
    beyond comparing it with 'W' and raises no error for an unknown code.
    Every code other than 'W' -- 'R', 'B' or any other string -- gives
    exactly the outcome of a read; and for every code and address, on a
    level with a positive block size, at least one set and the containers
    of the addressed set in place, an access that hits, or that misses in
    a set with a free way, completes without raising. *)
Theorem access_operation_codes (operation : string) (a : Z) (s : CacheLevel) :
  (operation ≠ "W" → access operation a s = access "R" a s)
  ∧ (∀ (od : OrderedDict.t) (d : gset Z),
       0 < block_size s → 0 < num_sets s →
       cache s !! ((a `div` block_size s) `mod` num_sets s) = Some od →
       dirty_bits s !! ((a `div` block_size s) `mod` num_sets s) = Some d →
       a `div` (block_size s * num_sets s) ∈ od.*1
       ∨ Z.of_nat (length od) < associativity s →
       ∃ s', access operation a s = Ok tt s').
Proof.
  split.
  - apply access_reads_unless_write.
  - intros od d. apply access_completes.
Qed.

Lemma access_operation_codes_witness :
  access "X" 32 (after [("R", 0)] (fresh "MRU" None))
  = access "R" 32 (after [("R", 0)] (fresh "MRU" None))
  ∧ ∃ s', access "X" 32 (after [("R", 0)] (fresh "MRU" None)) = Ok tt s'.
Proof.
  destruct (access_operation_codes "X" 32 (after [("R", 0)] (fresh "MRU" None)))
    as [Hread Hdone].
  split.
  - apply Hread. discriminate.
  - apply (Hdone [(0, 0)] ∅); [reflexivity | reflexivity | reflexivity | reflexivity |].
    right. reflexivity.
Defined.

(** C5 as specified does not hold: the code 'X' is none of 'R', 'W', 'B',
    and the access is carried out as a read miss. *)
Lemma invalid_operation_is_accepted :
  "X" ≠ "R" ∧ "X" ≠ "W" ∧ "X" ≠ "B"
  ∧ ∃ s', access "X" 0 (fresh "FIFO" None) = Ok tt s'
          ∧ reports s' = [Miss 0]
          ∧ resident_tags 0 s' = Some [0].
Proof.
  do 3 (split; [discriminate |]).
  eexists. split; [evaluate |]. split; reflexivity.
Qed.

(** ** The capacity invariant *)

Section Preservation.

Variable P : CacheLevel → Prop.

Lemma preserves_bind {A B} (m : M A) (k : A → M B) :
  preserves P m → (∀ a, preserves P (k a)) → preserves P (bind m k).
Proof.
  intros Hm Hk s Hs. specialize (Hm s Hs). unfold bind.
  destruct (m s) as [a s'|e s']; cbn in Hm; [by apply Hk | done].
Qed.

Lemma preserves_ret {A} (a : A) : preserves P (ret a).
Proof. by intros s Hs. Qed.

Lemma preserves_raise {A} (e : Py.exn) : preserves P (raise (A := A) e).
Proof. by intros s Hs. Qed.

Lemma preserves_gets {A} (f : CacheLevel → A) : preserves P (gets f).
Proof. by intros s Hs. Qed.

Lemma preserves_cache_getitem (i : Z) : preserves P (cache_getitem i).
Proof. intros s Hs. unfold cache_getitem. by destruct (cache s !! i). Qed.

Lemma preserves_dirty_getitem (i : Z) : preserves P (dirty_getitem i).
Proof. intros s Hs. unfold dirty_getitem. by destruct (dirty_bits s !! i). Qed.

End Preservation.

Lemma within_capacity_store (i : Z) (od : OrderedDict.t) (s : CacheLevel) :
  within_capacity s → Z.of_nat (length od) ≤ associativity s →
  within_capacity (set_cache (<[i := od]> (cache s)) s).
Proof.
  intros [Hp Hc] Hlen. split; [exact Hp |].
  intros j od' Hj. cbn in Hj |- *.
  rewrite lookup_insert in Hj. case_decide; [by simplify_eq | by eapply Hc].
Qed.

Lemma dirty_add_within_capacity (i tag : Z) :
  preserves within_capacity (dirty_add i tag).
Proof.
  apply preserves_bind; [apply preserves_dirty_getitem |].
  by intros d s Hs.
Qed.

Lemma move_to_end_within_capacity (i tag : Z) :
  preserves within_capacity (cache_move_to_end i tag).
Proof.
  intros s Hs. unfold cache_move_to_end, bind, cache_getitem.
  destruct (cache s !! i) as [od|] eqn:Hod; [| done].
  destruct (OrderedDict.move_to_end tag od) as [od'|] eqn:E; [| done].
  cbn. apply within_capacity_store; [done |].
  apply move_to_end_length in E. destruct Hs as [_ Hc].
  specialize (Hc i od Hod). lia.
Qed.

Lemma when_write_within_capacity (operation : string) (i tag : Z) :
  preserves within_capacity
    (when decide (operation = "W") then dirty_add i tag).
Proof.
  case_decide; [apply dirty_add_within_capacity | apply preserves_ret].
Qed.

Lemma emit_within_capacity (r : report) :
  preserves within_capacity (emit r).
Proof. by intros s Hs. Qed.

Lemma readonly_bind {A B} (m : M A) (k : A → M B) :
  readonly m → (∀ a, readonly (k a)) → readonly (bind m k).
Proof.
  intros Hm Hk s. specialize (Hm s). unfold bind.
  destruct (m s) as [a s'|e s']; cbn in Hm; subst; [apply Hk | done].
Qed.

Lemma readonly_lift {A} (r : Py.exn + A) : readonly (lift r).
Proof. by destruct r. Qed.

Lemma readonly_index (a : Z) : readonly (_calculate_index a).
Proof.
  repeat (apply readonly_bind; [done || apply readonly_lift | intros ?]).
  apply readonly_lift.
Qed.

Lemma readonly_tag (a : Z) : readonly (_calculate_tag a).
Proof.
  repeat (apply readonly_bind; [done || apply readonly_lift | intros ?]).
  apply readonly_lift.
Qed.

Lemma readonly_block_address (a : Z) : readonly (_calculate_block_address a).
Proof.
  repeat (apply readonly_bind; [done || apply readonly_lift | intros ?]).
  done.
Qed.

Lemma readonly_cache_getitem (i : Z) : readonly (cache_getitem i).
Proof. intros s. unfold cache_getitem. by destruct (cache s !! i). Qed.

Lemma cache_getitem_inv (i : Z) (s s' : CacheLevel) (od : OrderedDict.t) :
  cache_getitem i s = Ok od s' → cache s !! i = Some od.
Proof.
  unfold cache_getitem. destruct (cache s !! i); [| done]. by intros [= ->].
Qed.

(** Run a read-only step of a body: it either raises in the state it
    started from or hands its value to the rest. *)
Ltac ro_step lem :=
  unfold bind at 1;
  match goal with
  | |- context [match ?m ?s with Ok _ _ => _ | Raised _ _ => _ end] =>
      let E := fresh "E" in
      let R := fresh "R" in
      pose proof (lem s) as R; destruct (m s) eqn:E;
      cbn [state_of] in R; subst; [| done]
  end.

(** One access keeps the invariant, whether it returns or raises. *)
Lemma access_within_capacity (operation : string) (a : Z) :
  preserves within_capacity (access operation a).
Proof.
  intros s Hs. unfold access.
  ro_step (readonly_index a). ro_step (readonly_tag a).
  ro_step (readonly_block_address a).
  match goal with |- context [cache_getitem ?i] => ro_step (readonly_cache_getitem i) end.
  match goal with H : cache_getitem _ _ = _ |- _ =>
    apply cache_getitem_inv in H; rename H into Hod end.
  destruct (OrderedDict.contains _ _).
  - refine (preserves_bind within_capacity _ _ _ _ s Hs);
      [apply emit_within_capacity | intros _].
    apply preserves_bind; [apply preserves_gets | intros policy].
    apply preserves_bind; [| intros _; apply when_write_within_capacity].
    case_decide; [apply move_to_end_within_capacity | apply preserves_ret].
  - unfold report_miss. mstep emit_ok.
    erewrite bind_ok by (apply cache_getitem_ok; exact Hod). cbv beta.
    mstep @gets_ok. cbn [associativity set_reports].
    case_decide as Hfull.
    + match goal with |- context [bind (evict ?i) _ ?s1] =>
        destruct (evict_known_raises i s1 (proj1 Hs)) as [e Hraise] end.
      rewrite (bind_raised _ _ _ _ _ Hraise). exact Hs.
    + erewrite bind_ok by reflexivity. cbv beta.
      erewrite bind_ok by (apply cache_setitem_ok; exact Hod). cbv beta.
      apply when_write_within_capacity.
      apply (within_capacity_store _ _ (set_reports _ s)); [exact Hs |].
      match goal with |- context [OrderedDict.setitem ?k ?v ?d] =>
        pose proof (setitem_length k v d) end.
      cbn [associativity set_reports]. lia.
Qed.

Lemma run_within_capacity (trace : list (string * Z)) :
  preserves within_capacity (run trace).
Proof.
  induction trace as [|[operation a] trace IH]; cbn [run].
  - apply preserves_ret.
  - apply preserves_bind; [apply access_within_capacity | by intros _].
Qed.

(** A freshly constructed level with a non-negative number of ways is
    within capacity: all its sets are empty. *)
Lemma init_within_capacity (size block_size associativity : Z)
    (eviction_policy write_policy level_name : string)
    (higher_level lower_level : option nat) (s : CacheLevel) :
  known_policy eviction_policy → 0 ≤ associativity →
  __init__ size block_size associativity eviction_policy write_policy
    level_name higher_level lower_level = inr s →
  within_capacity s.
Proof.
  intros Hp Hassoc. unfold __init__.
  destruct (Py.floordiv _ _) as [e|ns]; [done |]. intros [= <-].
  split; [exact Hp |]. intros i od. cbn.
  rewrite init_sets_lookup. case_decide; [| done]. intros [= <-]. cbn. lia.
Qed.

(** C9, as the code behaves: for a level constructed with the policy FIFO,
    LRU or MRU and a non-negative associativity, every set holds at most
    [associativity] tags in the state any trace of accesses leaves behind,
    in particular after every trace that completes. *)
Theorem capacity_invariant (size block_size associativity : Z)
    (eviction_policy write_policy level_name : string)
    (higher_level lower_level : option nat) (s : CacheLevel)
    (trace : list (string * Z)) :
  known_policy eviction_policy → 0 ≤ associativity →
  __init__ size block_size associativity eviction_policy write_policy
    level_name higher_level lower_level = inr s →
  capacity_ok (after trace s)
  ∧ ∀ s', run trace s = Ok tt s' → capacity_ok s'.
Proof.
  intros Hp Hassoc Hinit.
  pose proof (init_within_capacity _ _ _ _ _ _ _ _ _ Hp Hassoc Hinit) as Hs.
  pose proof (run_within_capacity trace s Hs) as [_ Hc].
  split; [exact Hc |]. intros s' Hrun. unfold after in Hc.
  by rewrite Hrun in Hc.
Qed.

Lemma capacity_invariant_witness :
  known_policy "LRU" ∧ 0 ≤ 2
  ∧ __init__ 64 16 2 "LRU" "WB" "L1" None None = inr (fresh "LRU" None)
  ∧ capacity_ok (after [("W", 0); ("R", 32); ("R", 0); ("W", 16)] (fresh "LRU" None))
  ∧ ∀ s', run [("W", 0); ("R", 32); ("R", 0); ("W", 16)] (fresh "LRU" None) = Ok tt s' →
          capacity_ok s'.
Proof.
  split; [right; left; reflexivity |]. split; [discriminate |].
  split; [reflexivity |].
  apply (capacity_invariant 64 16 2 "LRU" "WB" "L1" None None);
    [right; left; reflexivity | discriminate | reflexivity].
Defined.

(** C9 as specified does not hold for a policy outside FIFO, LRU and MRU:
    [evict] returns without removing anything, the new block is inserted
    all the same, and three accesses leave three tags in a two-way set. *)
Lemma unknown_policy_overfills_set :
  ¬ known_policy "RANDOM"
  ∧ ∃ s', __init__ 64 16 2 "RANDOM" "WB" "L1" None None = inr (fresh "RANDOM" None)
          ∧ run [("R", 0); ("R", 32); ("R", 64)] (fresh "RANDOM" None) = Ok tt s'
          ∧ resident_tags 0 s' = Some [0; 1; 2]
          ∧ ¬ capacity_ok s'.
Proof.
  split. { intros [?|[?|?]]; discriminate. }
  eexists. split; [reflexivity |]. split; [evaluate |].
  split; [reflexivity |].
  intros Hc. specialize (Hc 0 [(0, 0); (1, 32); (2, 64)] eq_refl).
  revert Hc. cbn. lia.
Qed.

(** * Further properties of the level *)

(** ** Address arithmetic, continued *)

(** X1: with a positive block size and at least one set, the set index of
    any address, negative ones included, is a valid index
    [0 <= index < num_sets]. *)
Theorem index_in_range (s : CacheLevel) (a : Z) :
  0 < block_size s → 0 < num_sets s →
  ∃ cache_index,
    _calculate_index a s = Ok cache_index s
    ∧ 0 ≤ cache_index < num_sets s.
Proof.
  intros Hbs Hns. eexists. split; [by apply index_ok |].
  by apply Z.mod_pos_bound.
Qed.

Lemma index_in_range_witness :
  0 < block_size (fresh "FIFO" None) ∧ 0 < num_sets (fresh "FIFO" None)
  ∧ ∃ cache_index,
      _calculate_index (-40) (fresh "FIFO" None) = Ok cache_index (fresh "FIFO" None)
      ∧ 0 ≤ cache_index < num_sets (fresh "FIFO" None).
Proof.
  split; [reflexivity |]. split; [reflexivity |].
  apply (index_in_range (fresh "FIFO" None) (-40)); reflexivity.
Defined.

(** X2: with a positive block size, the block address of [a] is the
    multiple of the block size at or just below [a]. *)
Theorem block_address_aligned (s : CacheLevel) (a : Z) :
  0 < block_size s →
  ∃ block_address,
    _calculate_block_address a s = Ok block_address s
    ∧ block_address `mod` block_size s = 0
    ∧ block_address ≤ a < block_address + block_size s.
Proof.
  intros Hbs. eexists. split; [by apply block_address_ok |].
  pose proof (Z.mod_pos_bound a (block_size s) Hbs).
  split; [| lia].
  rewrite block_base by done. rewrite Z.mul_comm. apply Z.mod_mul. lia.
Qed.

Lemma block_address_aligned_witness :
  0 < block_size (fresh "FIFO" None)
  ∧ ∃ block_address,
      _calculate_block_address 45 (fresh "FIFO" None)
      = Ok block_address (fresh "FIFO" None)
      ∧ block_address `mod` block_size (fresh "FIFO" None) = 0
      ∧ block_address ≤ 45 < block_address + block_size (fresh "FIFO" None).
Proof.
  split; [reflexivity |].
  apply (block_address_aligned (fresh "FIFO" None) 45); reflexivity.
Defined.

(** X3: the reconstruction is inverted by the decomposition: the address
    rebuilt from a tag and a valid set index has that tag and that index
    again, and is its own block address. *)
Theorem decomposition_of_reconstruction (s : CacheLevel) (tag cache_index : Z) :
  0 < block_size s → 0 ≤ cache_index < num_sets s →
  ∃ block_address,
    _calculate_block_address_from_tag_index tag cache_index s = Ok block_address s
    ∧ _calculate_tag block_address s = Ok tag s
    ∧ _calculate_index block_address s = Ok cache_index s
    ∧ _calculate_block_address block_address s = Ok block_address s.
Proof.
  intros Hbs Hidx. assert (0 < num_sets s) as Hns by lia.
  eexists. split; [reflexivity |].
  assert (((tag * num_sets s + cache_index) * block_size s) `div` block_size s
          = tag * num_sets s + cache_index) as Hq by (apply Z.div_mul; lia).
  split; [| split].
  - rewrite tag_ok by done. f_equal.
    rewrite <- Z.div_div, Hq by lia.
    rewrite Z.div_add_l by lia. rewrite Z.div_small by lia. lia.
  - rewrite index_ok by done. f_equal. rewrite Hq.
    rewrite Z.add_comm, Z.mod_add by lia. apply Z.mod_small. lia.
  - rewrite block_address_ok by done. f_equal.
    rewrite Z.mod_mul by lia. lia.
Qed.

Lemma decomposition_of_reconstruction_witness :
  0 < block_size (fresh "FIFO" None) ∧ 0 ≤ 1 < num_sets (fresh "FIFO" None)
  ∧ ∃ block_address,
      _calculate_block_address_from_tag_index 3 1 (fresh "FIFO" None)
      = Ok block_address (fresh "FIFO" None)
      ∧ _calculate_tag block_address (fresh "FIFO" None) = Ok 3 (fresh "FIFO" None)
      ∧ _calculate_index block_address (fresh "FIFO" None) = Ok 1 (fresh "FIFO" None)
      ∧ _calculate_block_address block_address (fresh "FIFO" None)
        = Ok block_address (fresh "FIFO" None).
Proof.
  split; [reflexivity |]. split; [split; [discriminate | reflexivity] |].
  apply (decomposition_of_reconstruction (fresh "FIFO" None) 3 1);
    [reflexivity | split; [discriminate | reflexivity]].
Defined.

(** X4: two addresses get the same tag and the same set index exactly
    when they lie in the same block. *)
Theorem same_tag_and_index_iff_same_block (s : CacheLevel) (a a' : Z) :
  0 < block_size s → 0 < num_sets s →
  (_calculate_tag a s = _calculate_tag a' s
   ∧ _calculate_index a s = _calculate_index a' s)
  ↔ _calculate_block_address a s = _calculate_block_address a' s.
Proof.
  intros Hbs Hns. rewrite !tag_ok, !index_ok, !block_address_ok by done.
  rewrite !block_base by done.
  pose proof (tag_index_recompose s Hbs Hns a) as Ha.
  pose proof (tag_index_recompose s Hbs Hns a') as Ha'.
  split.
  - intros [[= Ht] [= Hi]]. f_equal. f_equal. lia.
  - intros [= Hb]. apply Z.mul_reg_l in Hb; [| lia].
    rewrite <- !Z.div_div by lia. by rewrite Hb.
Qed.

Lemma same_tag_and_index_iff_same_block_witness :
  0 < block_size (fresh "FIFO" None) ∧ 0 < num_sets (fresh "FIFO" None)
  ∧ ((_calculate_tag 33 (fresh "FIFO" None) = _calculate_tag 47 (fresh "FIFO" None)
      ∧ _calculate_index 33 (fresh "FIFO" None) = _calculate_index 47 (fresh "FIFO" None))
     ↔ _calculate_block_address 33 (fresh "FIFO" None)
       = _calculate_block_address 47 (fresh "FIFO" None)).
Proof.
  split; [reflexivity |]. split; [reflexivity |].
  apply (same_tag_and_index_iff_same_block (fresh "FIFO" None) 33 47); reflexivity.
Defined.

(** X5: a level whose size is smaller than one set is constructed with
    [num_sets = 0], and every access to it, whatever the operation and
    the address, raises [ZeroDivisionError] without touching the level. *)
Theorem level_without_sets_rejects_every_access (size block_size associativity : Z)
    (eviction_policy write_policy level_name : string)
    (higher_level lower_level : option nat) :
  0 < block_size * associativity → 0 ≤ size < block_size * associativity →
  ∃ s, __init__ size block_size associativity eviction_policy write_policy
         level_name higher_level lower_level = inr s
     ∧ num_sets s = 0
     ∧ ∀ operation a, access operation a s = Raised Py.ZeroDivisionError s.
Proof.
  intros Hpos Hsize. unfold __init__, Py.floordiv.
  case_decide; [lia |]. eexists. split; [reflexivity |].
  rewrite Z.div_small by lia. split; [reflexivity |].
  intros operation a. unfold access.
  apply bind_raised. unfold _calculate_index.
  unfold bind, gets, lift, Py.floordiv, Py.mod_. cbn.
  case_decide; [nia |]. cbn. reflexivity.
Qed.

Lemma level_without_sets_rejects_every_access_witness :
  0 < 16 * 2 ∧ 0 ≤ 16 < 16 * 2
  ∧ ∃ s, __init__ 16 16 2 "FIFO" "WB" "L1" None None = inr s
     ∧ num_sets s = 0
     ∧ ∀ operation a, access operation a s = Raised Py.ZeroDivisionError s.
Proof.
  split; [reflexivity |]. split; [split; [discriminate | reflexivity] |].
  apply (level_without_sets_rejects_every_access 16 16 2 "FIFO" "WB" "L1" None None);
    [reflexivity | split; [discriminate | reflexivity]].
Defined.

(** ** Eviction, continued *)

(** X7: the failures of [evict] under FIFO, LRU and MRU on a set that
    holds nothing to select: a set index without a set raises [KeyError],
    an empty set raises [StopIteration]. *)
Theorem evict_without_victim (cache_index : Z) (s : CacheLevel) :
  known_policy (eviction_policy s) →
  (cache s !! cache_index = None →
   evict cache_index s = Raised (Py.KeyError cache_index) s)
  ∧ (cache s !! cache_index = Some [] →
     evict cache_index s = Raised Py.StopIteration s).
Proof.
  intros Hp.
  split; intros Hod; unfold evict; apply bind_raised;
    unfold select_victim, bind, gets, cache_getitem;
    repeat case_decide; try (destruct Hp as [?|[?|?]]; congruence);
    unfold OrderedDict.t in *; rewrite Hod; reflexivity.
Qed.

Lemma evict_without_victim_witness :
  known_policy (eviction_policy (fresh "MRU" None))
  ∧ (cache (fresh "MRU" None) !! 7 = None →
     evict 7 (fresh "MRU" None) = Raised (Py.KeyError 7) (fresh "MRU" None))
  ∧ (cache (fresh "MRU" None) !! 1 = Some [] →
     evict 1 (fresh "MRU" None) = Raised Py.StopIteration (fresh "MRU" None)).
Proof.
  assert (known_policy (eviction_policy (fresh "MRU" None))) as Hp
    by (right; right; reflexivity).
  split; [exact Hp |].
  split.
  - apply (proj1 (evict_without_victim 7 (fresh "MRU" None) Hp)).
  - apply (proj2 (evict_without_victim 1 (fresh "MRU" None) Hp)).
Defined.

(** X8: under a policy other than FIFO, LRU and MRU, [evict] returns at
    once for every set index, even one that has no set: it selects no
    victim, removes nothing and reports nothing. *)
Theorem evict_returns_for_unknown_policy (cache_index : Z) (s : CacheLevel) :
  ¬ known_policy (eviction_policy s) →
  evict cache_index s = Ok tt s.
Proof. apply evict_unknown_noop. Qed.

Lemma evict_returns_for_unknown_policy_witness :
  ¬ known_policy (eviction_policy (after [("R", 0); ("R", 32)] (fresh "RANDOM" None)))
  ∧ evict 7 (after [("R", 0); ("R", 32)] (fresh "RANDOM" None))
    = Ok tt (after [("R", 0); ("R", 32)] (fresh "RANDOM" None)).
Proof.
  assert (¬ known_policy (eviction_policy (after [("R", 0); ("R", 32)] (fresh "RANDOM" None))))
    as Hp by (intros [?|[?|?]]; discriminate).
  split; [exact Hp |].
  apply (evict_returns_for_unknown_policy 7 _ Hp).
Defined.

(** ** The ordered dictionary, continued *)

Lemma without_keys (k t : Z) (d : OrderedDict.t) :
  t ∈ (OrderedDict.without k d).*1 ↔ t ≠ k ∧ t ∈ d.*1.
Proof.
  unfold OrderedDict.without. rewrite !list_elem_of_fmap. split.
  - intros ([t' v] & -> & Hin). apply list_elem_of_filter in Hin as [Hne Hin].
    split; [done |]. by exists (t', v).
  - intros (Hne & [t' v] & -> & Hin). exists (t', v). split; [done |].
    by apply list_elem_of_filter.
Qed.

Lemma without_absent (k : Z) (d : OrderedDict.t) :
  k ∉ d.*1 → OrderedDict.without k d = d.
Proof.
  unfold OrderedDict.without, OrderedDict.t.
  induction d as [|[k' v'] d IH]; [done |].
  rewrite fmap_cons, not_elem_of_cons, filter_cons. cbn [fst].
  intros [Hne Hnin]. case_decide; [| congruence]. by rewrite IH.
Qed.

Lemma pop_resident (k : Z) (d : OrderedDict.t) :
  k ∈ d.*1 → ∃ v, (k, v) ∈ d ∧ OrderedDict.pop k d = Some (v, OrderedDict.without k d).
Proof.
  intros Hk. apply list_elem_of_fmap in Hk as [[k' v] [Hk Hin]]. cbn in Hk. subst k'.
  destruct (list_find_elem_of (λ kv : Z * Z, kv.1 = k) d (k, v) Hin eq_refl)
    as [[i [k' v']] E].
  unfold OrderedDict.pop. rewrite E. exists v'. split; [| done].
  apply list_find_Some in E as (Hi & Hk & _). cbn in Hk. subst k'.
  by apply list_elem_of_lookup_2 in Hi.
Qed.

Lemma pop_absent (k : Z) (d : OrderedDict.t) :
  k ∉ d.*1 → OrderedDict.pop k d = None.
Proof.
  intros Hk. unfold OrderedDict.pop.
  destruct (list_find _ d) as [[i [k' v]]|] eqn:E; [| done].
  apply list_find_Some in E as (Hi & Hk' & _). cbn in Hk'. subst k'.
  exfalso. apply Hk. apply list_elem_of_fmap. exists (k, v). split; [done |].
  by apply list_elem_of_lookup_2 in Hi.
Qed.

Lemma move_to_end_eq (k : Z) (d : OrderedDict.t) :
  k ∈ d.*1 →
  ∃ v, (k, v) ∈ d
       ∧ OrderedDict.move_to_end k d = Some (OrderedDict.without k d ++ [(k, v)]).
Proof.
  intros Hk. destruct (pop_resident k d Hk) as (v & Hin & E).
  exists v. split; [done |]. unfold OrderedDict.move_to_end. by rewrite E.
Qed.

Lemma move_to_end_keys (k t : Z) (d d' : OrderedDict.t) :
  OrderedDict.move_to_end k d = Some d' → t ∈ d'.*1 ↔ t ∈ d.*1.
Proof.
  unfold OrderedDict.move_to_end.
  destruct (OrderedDict.pop k d) as [[v d0]|] eqn:E; [| done]. intros [= <-].
  destruct (decide (k ∈ d.*1)) as [Hk|Hk]; [| by rewrite pop_absent in E].
  destruct (pop_resident k d Hk) as (v' & _ & E'). rewrite E' in E.
  injection E as <- <-.
  rewrite fmap_app, elem_of_app, without_keys. cbn.
  rewrite list_elem_of_singleton.
  destruct (decide (t = k)) as [->|]; intuition congruence.
Qed.

Lemma setitem_keys (k v t : Z) (d : OrderedDict.t) :
  t ∈ (OrderedDict.setitem k v d).*1 ↔ t = k ∨ t ∈ d.*1.
Proof.
  induction d as [|[k' v'] d IH]; cbn [OrderedDict.setitem].
  - rewrite fmap_cons, elem_of_cons. cbn. done.
  - case_decide; rewrite !fmap_cons, !elem_of_cons; cbn [fst]; [subst|]; intuition congruence.
Qed.

Lemma contains_true (k : Z) (d : OrderedDict.t) :
  OrderedDict.contains k d = true ↔ k ∈ d.*1.
Proof. unfold OrderedDict.contains. by rewrite bool_decide_eq_true. Qed.

Lemma contains_false (k : Z) (d : OrderedDict.t) :
  OrderedDict.contains k d = false ↔ k ∉ d.*1.
Proof. unfold OrderedDict.contains. by rewrite bool_decide_eq_false. Qed.

(** ** More steps of method bodies *)

Lemma cache_pop_ok (i tag : Z) (s : CacheLevel) (od : OrderedDict.t) :
  cache s !! i = Some od → tag ∈ od.*1 →
  cache_pop i tag s
  = Ok tt (set_cache (<[i := OrderedDict.without tag od]> (cache s)) s).
Proof.
  intros H Hin. destruct (pop_resident tag od Hin) as (v & _ & E).
  unfold cache_pop. rewrite (bind_ok _ _ _ _ _ (cache_getitem_ok _ _ _ H)).
  by rewrite E.
Qed.

Lemma dirty_remove_ok (i tag : Z) (s : CacheLevel) (d : gset Z) :
  dirty_bits s !! i = Some d → tag ∈ d →
  dirty_remove i tag s
  = Ok tt (set_dirty_bits (<[i := d ∖ {[tag]}]> (dirty_bits s)) s).
Proof.
  intros H Hin. unfold dirty_remove.
  rewrite (bind_ok _ _ _ _ _ (dirty_getitem_ok _ _ _ H)).
  by rewrite bool_decide_eq_true_2.
Qed.

(** ** Invalidation *)

(** Invalidating an absent block returns in the state it started from. *)
Lemma invalidate_absent_noop (block_address : Z) (s : CacheLevel)
    (od : OrderedDict.t) :
  0 < block_size s → 0 < num_sets s →
  cache s !! ((block_address `div` block_size s) `mod` num_sets s) = Some od →
  (block_address `div` (block_size s * num_sets s)) ∉ od.*1 →
  invalidate block_address s = Ok tt s.
Proof.
  intros Hbs Hns Hod Hnin. unfold invalidate.
  mstep index_ok. mstep tag_ok. mstep cache_getitem_ok.
  by rewrite (proj2 (contains_false _ _) Hnin).
Qed.

(** X9: invalidating a block that is not resident does nothing: the call
    returns, the level is unchanged and nothing is reported. *)
Theorem invalidate_absent_block (block_address : Z) (s : CacheLevel)
    (od : OrderedDict.t) :
  0 < block_size s → 0 < num_sets s →
  cache s !! ((block_address `div` block_size s) `mod` num_sets s) = Some od →
  (block_address `div` (block_size s * num_sets s)) ∉ od.*1 →
  invalidate block_address s = Ok tt s.
Proof. apply invalidate_absent_noop. Qed.

Lemma invalidate_absent_block_witness :
  0 < block_size (after [("W", 0)] (fresh "FIFO" None))
  ∧ 0 < num_sets (after [("W", 0)] (fresh "FIFO" None))
  ∧ cache (after [("W", 0)] (fresh "FIFO" None)) !! ((32 `div` 16) `mod` 2)
    = Some [(0, 0)]
  ∧ ((32 `div` (16 * 2)) ∉ [(0, 0)].*1)
  ∧ invalidate 32 (after [("W", 0)] (fresh "FIFO" None))
    = Ok tt (after [("W", 0)] (fresh "FIFO" None)).
Proof.
  assert ((32 `div` (16 * 2)) ∉ [(0, 0)].*1) as Hnin.
  { cbn. rewrite list_elem_of_singleton. discriminate. }
  split; [reflexivity |]. split; [reflexivity |]. split; [reflexivity |].
  split; [exact Hnin |].
  apply (invalidate_absent_block 32 (after [("W", 0)] (fresh "FIFO" None)) [(0, 0)]);
    [reflexivity | reflexivity | reflexivity | exact Hnin].
Defined.

(** The state a successful invalidation of a resident block leaves. *)
Lemma invalidate_resident_block_state (block_address : Z) (s : CacheLevel)
    (od : OrderedDict.t) (d : gset Z) :
  0 < block_size s → 0 < num_sets s →
  cache s !! ((block_address `div` block_size s) `mod` num_sets s) = Some od →
  dirty_bits s !! ((block_address `div` block_size s) `mod` num_sets s) = Some d →
  block_address `div` (block_size s * num_sets s) ∈ od.*1 →
  ∃ s', invalidate block_address s = Ok tt s'
      ∧ reports s'
        = reports s
          ++ (if bool_decide (block_address `div` (block_size s * num_sets s) ∈ d)
              then [Writeback block_address] else [])
          ++ [Eviction block_address]
      ∧ cache s'
        = <[(block_address `div` block_size s) `mod` num_sets s
            := OrderedDict.without (block_address `div` (block_size s * num_sets s)) od]>
            (cache s)
      ∧ dirty_bits s'
        = <[(block_address `div` block_size s) `mod` num_sets s
            := d ∖ {[block_address `div` (block_size s * num_sets s)]}]>
            (dirty_bits s)
      ∧ configuration s' = configuration s.
Proof.
  intros Hbs Hns Hod Hd Hin. unfold invalidate.
  mstep index_ok. mstep tag_ok. mstep cache_getitem_ok.
  rewrite (proj2 (contains_true _ _) Hin).
  mstep dirty_getitem_ok.
  case_bool_decide as Hdirty.
  - unfold report_writeback, report_eviction.
    erewrite bind_ok; [| erewrite bind_ok by apply emit_ok;
                         apply dirty_remove_ok; [exact Hd | exact Hdirty]].
    erewrite bind_ok by (apply cache_pop_ok; [exact Hod | exact Hin]).
    rewrite emit_ok. eexists. split; [reflexivity |]. cbn.
    rewrite <- !app_assoc. done.
  - unfold report_eviction.
    erewrite bind_ok by reflexivity.
    erewrite bind_ok by (apply cache_pop_ok; [exact Hod | exact Hin]).
    rewrite emit_ok. eexists. split; [reflexivity |]. cbn.
    repeat split.
    rewrite difference_disjoint_L by (by apply disjoint_singleton_r).
    by rewrite insert_id.
Qed.

(** X10: invalidating a resident block returns after removing its tag
    from the set and from the dirty set, and reports a writeback, if the
    block was dirty, followed by an eviction; the other sets and the
    configuration are untouched. *)
Theorem invalidate_resident_block (block_address : Z) (s : CacheLevel)
    (od : OrderedDict.t) (d : gset Z) :
  0 < block_size s → 0 < num_sets s →
  cache s !! ((block_address `div` block_size s) `mod` num_sets s) = Some od →
  dirty_bits s !! ((block_address `div` block_size s) `mod` num_sets s) = Some d →
  block_address `div` (block_size s * num_sets s) ∈ od.*1 →
  ∃ s', invalidate block_address s = Ok tt s'
      ∧ reports s'
        = reports s
          ++ (if bool_decide (block_address `div` (block_size s * num_sets s) ∈ d)
              then [Writeback block_address] else [])
          ++ [Eviction block_address]
      ∧ cache s'
        = <[(block_address `div` block_size s) `mod` num_sets s
            := OrderedDict.without (block_address `div` (block_size s * num_sets s)) od]>
            (cache s)
      ∧ dirty_bits s'
        = <[(block_address `div` block_size s) `mod` num_sets s
            := d ∖ {[block_address `div` (block_size s * num_sets s)]}]>
            (dirty_bits s)
      ∧ configuration s' = configuration s.
Proof. apply invalidate_resident_block_state. Qed.

Lemma invalidate_resident_block_witness :
  0 < block_size (after [("W", 0); ("R", 32)] (fresh "FIFO" None))
  ∧ 0 < num_sets (after [("W", 0); ("R", 32)] (fresh "FIFO" None))
  ∧ ∃ s', invalidate 5 (after [("W", 0); ("R", 32)] (fresh "FIFO" None)) = Ok tt s'
      ∧ reports s' = [Miss 0; Miss 32; Writeback 5; Eviction 5]
      ∧ cache s' = {[ 0 := [(1, 32)]; 1 := [] ]}
      ∧ dirty_bits s' = {[ 0 := ∅; 1 := ∅ ]}.
Proof.
  split; [reflexivity |]. split; [reflexivity |].
  destruct (invalidate_resident_block 5 (after [("W", 0); ("R", 32)] (fresh "FIFO" None))
              [(0, 0); (1, 32)] {[0]})
    as (s' & Hrun & Hreports & Hcache & Hdirty & _);
    [reflexivity | reflexivity | reflexivity | reflexivity | |].
  { cbn. rewrite elem_of_cons. left. reflexivity. }
  exists s'. split; [exact Hrun |].
  split; [rewrite Hreports; reflexivity |].
  split; [rewrite Hcache; reflexivity | rewrite Hdirty; reflexivity].
Defined.

(** X11: once a resident block has been invalidated, [is_dirty] answers
    false for it and invalidating it a second time changes and reports
    nothing. *)
Theorem invalidate_twice (block_address : Z) (s : CacheLevel)
    (od : OrderedDict.t) (d : gset Z) :
  0 < block_size s → 0 < num_sets s →
  cache s !! ((block_address `div` block_size s) `mod` num_sets s) = Some od →
  dirty_bits s !! ((block_address `div` block_size s) `mod` num_sets s) = Some d →
  block_address `div` (block_size s * num_sets s) ∈ od.*1 →
  ∃ s', invalidate block_address s = Ok tt s'
      ∧ is_dirty block_address s' = Ok false s'
      ∧ invalidate block_address s' = Ok tt s'.
Proof.
  intros Hbs Hns Hod Hd Hin.
  destruct (invalidate_resident_block_state block_address s od d Hbs Hns Hod Hd Hin)
    as (s' & Hrun & _ & Hcache & Hdirty & Hcfg).
  injection Hcfg as _ _ _ _ Hbs' _ _ _ Hns'.
  exists s'. split; [exact Hrun |].
  assert (0 < block_size s') as Hbs2 by lia.
  assert (0 < num_sets s') as Hns2 by lia.
  split.
  - unfold is_dirty. mstep index_ok. mstep tag_ok.
    rewrite Hbs', Hns'.
    erewrite bind_ok
      by (apply dirty_getitem_ok; rewrite Hdirty; apply lookup_insert_eq).
    cbv beta. unfold ret. f_equal. apply bool_decide_eq_false.
    rewrite elem_of_difference, elem_of_singleton. tauto.
  - apply (invalidate_absent_noop _ _ (OrderedDict.without
             (block_address `div` (block_size s * num_sets s)) od));
      [done | done | rewrite Hbs', Hns', Hcache; apply lookup_insert_eq |].
    rewrite Hbs', Hns', without_keys. tauto.
Qed.

Lemma invalidate_twice_witness :
  0 < block_size (after [("W", 0); ("R", 32)] (fresh "LRU" None))
  ∧ 0 < num_sets (after [("W", 0); ("R", 32)] (fresh "LRU" None))
  ∧ ∃ s', invalidate 0 (after [("W", 0); ("R", 32)] (fresh "LRU" None)) = Ok tt s'
      ∧ is_dirty 0 s' = Ok false s'
      ∧ invalidate 0 s' = Ok tt s'.
Proof.
  split; [reflexivity |]. split; [reflexivity |].
  apply (invalidate_twice 0 (after [("W", 0); ("R", 32)] (fresh "LRU" None))
           [(0, 0); (1, 32)] {[0]});
    [reflexivity | reflexivity | reflexivity | reflexivity |].
  cbn. rewrite elem_of_cons. left. reflexivity.
Defined.

(** ** What the methods leave alone *)

Lemma readonly_preserves {A} (P : CacheLevel → Prop) (m : M A) :
  readonly m → preserves P m.
Proof. intros Hm s Hs. by rewrite Hm. Qed.

Lemma readonly_evict (cache_index : Z) : readonly (evict cache_index).
Proof.
  intros s.
  destruct (decide (eviction_policy s = "FIFO")) as [Hf|Hf];
    [| destruct (decide (eviction_policy s = "LRU")) as [Hl|Hl];
       [| destruct (decide (eviction_policy s = "MRU")) as [Hm|Hm]]].
  1-3: destruct (evict_known_raises cache_index s) as [e ->];
    [unfold known_policy; tauto | done].
  rewrite evict_unknown_noop; [done |].
  unfold known_policy. tauto.
Qed.

Section Frame.

Variable P : CacheLevel → Prop.
Hypothesis P_cache : ∀ c s, P s → P (set_cache c s).
Hypothesis P_reports : ∀ r s, P s → P (set_reports r s).

Lemma frame_emit (r : report) : preserves P (emit r).
Proof. intros s Hs. by apply P_reports. Qed.

Lemma frame_cache_store (i : Z) (od : OrderedDict.t) :
  preserves P (cache_store i od).
Proof. intros s Hs. by apply P_cache. Qed.

Lemma frame_cache_move_to_end (i tag : Z) :
  preserves P (cache_move_to_end i tag).
Proof.
  apply preserves_bind; [apply preserves_cache_getitem | intros od].
  destruct (OrderedDict.move_to_end tag od);
    [apply frame_cache_store | apply preserves_raise].
Qed.

Lemma frame_cache_setitem (i tag b : Z) :
  preserves P (cache_setitem i tag b).
Proof.
  apply preserves_bind; [apply preserves_cache_getitem | intros od].
  apply frame_cache_store.
Qed.

Lemma frame_cache_pop (i tag : Z) : preserves P (cache_pop i tag).
Proof.
  apply preserves_bind; [apply preserves_cache_getitem | intros od].
  destruct (OrderedDict.pop tag od) as [[v od']|];
    [apply frame_cache_store | apply preserves_raise].
Qed.

(** Everything [access] does before it looks at the operation code. *)
Lemma frame_access_not_write (operation : string) (a : Z) :
  operation ≠ "W" → preserves P (access operation a).
Proof.
  intros Hop. unfold access.
  apply preserves_bind; [apply readonly_preserves, readonly_index | intros idx].
  apply preserves_bind; [apply readonly_preserves, readonly_tag | intros tag].
  apply preserves_bind;
    [apply readonly_preserves, readonly_block_address | intros b].
  apply preserves_bind; [apply preserves_cache_getitem | intros od].
  destruct (OrderedDict.contains tag od).
  - apply preserves_bind; [apply frame_emit | intros _].
    apply preserves_bind; [apply preserves_gets | intros policy].
    apply preserves_bind.
    + case_decide; [apply frame_cache_move_to_end | apply preserves_ret].
    + intros _. case_decide; [done | apply preserves_ret].
  - apply preserves_bind; [apply frame_emit | intros _].
    apply preserves_bind; [apply preserves_cache_getitem | intros od'].
    apply preserves_bind; [apply preserves_gets | intros assoc].
    apply preserves_bind.
    + case_decide; [apply readonly_preserves, readonly_evict | apply preserves_ret].
    + intros _. apply preserves_bind; [apply frame_cache_setitem | intros _].
      case_decide; [done | apply preserves_ret].
Qed.

Hypothesis P_dirty : ∀ d s, P s → P (set_dirty_bits d s).

Lemma frame_dirty_add (i tag : Z) : preserves P (dirty_add i tag).
Proof.
  apply preserves_bind; [apply preserves_dirty_getitem | intros d].
  intros s Hs. by apply P_dirty.
Qed.

Lemma frame_dirty_remove (i tag : Z) : preserves P (dirty_remove i tag).
Proof.
  apply preserves_bind; [apply preserves_dirty_getitem | intros d].
  case_bool_decide; [| apply preserves_raise].
  intros s Hs. by apply P_dirty.
Qed.

Lemma frame_access (operation : string) (a : Z) :
  preserves P (access operation a).
Proof.
  unfold access.
  apply preserves_bind; [apply readonly_preserves, readonly_index | intros idx].
  apply preserves_bind; [apply readonly_preserves, readonly_tag | intros tag].
  apply preserves_bind;
    [apply readonly_preserves, readonly_block_address | intros b].
  apply preserves_bind; [apply preserves_cache_getitem | intros od].
  destruct (OrderedDict.contains tag od).
  - apply preserves_bind; [apply frame_emit | intros _].
    apply preserves_bind; [apply preserves_gets | intros policy].
    apply preserves_bind.
    + case_decide; [apply frame_cache_move_to_end | apply preserves_ret].
    + intros _. case_decide; [apply frame_dirty_add | apply preserves_ret].
  - apply preserves_bind; [apply frame_emit | intros _].
    apply preserves_bind; [apply preserves_cache_getitem | intros od'].
    apply preserves_bind; [apply preserves_gets | intros assoc].
    apply preserves_bind.
    + case_decide; [apply readonly_preserves, readonly_evict | apply preserves_ret].
    + intros _. apply preserves_bind; [apply frame_cache_setitem | intros _].
      case_decide; [apply frame_dirty_add | apply preserves_ret].
Qed.

Lemma frame_invalidate (block_address : Z) :
  preserves P (invalidate block_address).
Proof.
  unfold invalidate.
  apply preserves_bind; [apply readonly_preserves, readonly_index | intros idx].
  apply preserves_bind; [apply readonly_preserves, readonly_tag | intros tag].
  apply preserves_bind; [apply preserves_cache_getitem | intros od].
  destruct (OrderedDict.contains tag od); [| apply preserves_ret].
  apply preserves_bind; [apply preserves_dirty_getitem | intros d].
  apply preserves_bind.
  - case_bool_decide; [| apply preserves_ret].
    apply preserves_bind; [apply frame_emit | intros _].
    apply frame_dirty_remove.
  - intros _. apply preserves_bind; [apply frame_cache_pop | intros _].
    apply frame_emit.
Qed.

End Frame.

(** X6: [evict] never changes the level.  Whatever the policy and the set
    index, the state in which it returns or raises is the state it was
    called in: no block leaves the set, no dirty bit is cleared and
    nothing is reported. *)
Theorem evict_leaves_level_unchanged (cache_index : Z) (s : CacheLevel) :
  state_of (evict cache_index s) = s.
Proof. apply readonly_evict. Qed.

(** X12: [access] and [invalidate] never change the configuration of the
    level -- name, neighbours, size, block size, associativity, policies
    and number of sets -- whether they return or raise. *)
Theorem configuration_is_kept (operation : string) (a : Z) (s : CacheLevel) :
  configuration (state_of (access operation a s)) = configuration s
  ∧ configuration (state_of (invalidate a s)) = configuration s.
Proof.
  split.
  - by apply (frame_access (λ s', configuration s' = configuration s)).
  - by apply (frame_invalidate (λ s', configuration s' = configuration s)).
Qed.

(** X13: only a write access touches the dirty bits: for every operation
    code other than 'W' the dirty sets after the access, returned or
    raised, are the dirty sets before it. *)
Theorem access_other_than_write_keeps_dirty_bits (operation : string) (a : Z)
    (s : CacheLevel) :
  operation ≠ "W" →
  dirty_bits (state_of (access operation a s)) = dirty_bits s.
Proof.
  intros Hop.
  by apply (frame_access_not_write (λ s', dirty_bits s' = dirty_bits s)).
Qed.

Lemma access_other_than_write_keeps_dirty_bits_witness :
  "B" ≠ "W"
  ∧ dirty_bits (state_of (access "B" 0 (after [("W", 0); ("W", 32)] (fresh "LRU" None))))
    = dirty_bits (after [("W", 0); ("W", 32)] (fresh "LRU" None)).
Proof.
  split; [discriminate |].
  apply (access_other_than_write_keeps_dirty_bits "B" 0); discriminate.
Defined.

(** ** The branches of [access] *)

Lemma access_hit_step (operation : string) (a : Z) (s : CacheLevel)
    (od : OrderedDict.t) :
  0 < block_size s → 0 < num_sets s →
  cache s !! ((a `div` block_size s) `mod` num_sets s) = Some od →
  a `div` (block_size s * num_sets s) ∈ od.*1 →
  access operation a s
  = ((when decide (eviction_policy s = "LRU") then
        cache_move_to_end ((a `div` block_size s) `mod` num_sets s)
          (a `div` (block_size s * num_sets s))) ;;;
     when decide (operation = "W") then
       dirty_add ((a `div` block_size s) `mod` num_sets s)
         (a `div` (block_size s * num_sets s)))
      (set_reports (reports s ++ [Hit a]) s).
Proof.
  intros Hbs Hns Hod Hin. unfold access.
  mstep index_ok. mstep tag_ok. mstep block_address_ok. mstep cache_getitem_ok.
  rewrite (proj2 (contains_true _ _) Hin).
  unfold report_hit. mstep emit_ok. mstep @gets_ok. reflexivity.
Qed.

Lemma access_miss_step (operation : string) (a : Z) (s : CacheLevel)
    (od : OrderedDict.t) :
  0 < block_size s → 0 < num_sets s →
  cache s !! ((a `div` block_size s) `mod` num_sets s) = Some od →
  (a `div` (block_size s * num_sets s)) ∉ od.*1 →
  access operation a s
  = ((when decide (associativity s ≤ Z.of_nat (length od)) then
        evict ((a `div` block_size s) `mod` num_sets s)) ;;;
     cache_setitem ((a `div` block_size s) `mod` num_sets s)
       (a `div` (block_size s * num_sets s)) (a - a `mod` block_size s) ;;;
     when decide (operation = "W") then
       dirty_add ((a `div` block_size s) `mod` num_sets s)
         (a `div` (block_size s * num_sets s)))
      (set_reports (reports s ++ [Miss a]) s).
Proof.
  intros Hbs Hns Hod Hnin. unfold access.
  mstep index_ok. mstep tag_ok. mstep block_address_ok. mstep cache_getitem_ok.
  rewrite (proj2 (contains_false _ _) Hnin).
  unfold report_miss. mstep emit_ok.
  erewrite bind_ok by (apply cache_getitem_ok; exact Hod). cbv beta.
  mstep @gets_ok. reflexivity.
Qed.

(** The marking of a write leaves the sets and the reports alone. *)
Lemma when_write_keeps_cache_and_reports (operation : string) (i tag : Z)
    (s : CacheLevel) :
  cache (state_of ((when decide (operation = "W") then dirty_add i tag) s)) = cache s
  ∧ reports (state_of ((when decide (operation = "W") then dirty_add i tag) s))
    = reports s.
Proof.
  case_decide; [| done].
  by apply (frame_dirty_add (λ s', cache s' = cache s ∧ reports s' = reports s)).
Qed.

(** X14: a hit under a policy other than LRU (FIFO, MRU, or an
    unrecognised one) never reorders or changes the sets: the access
    reports the hit and leaves every ordered mapping as it was. *)
Theorem hit_keeps_order_unless_LRU (operation : string) (a : Z) (s : CacheLevel)
    (od : OrderedDict.t) :
  0 < block_size s → 0 < num_sets s →
  cache s !! ((a `div` block_size s) `mod` num_sets s) = Some od →
  a `div` (block_size s * num_sets s) ∈ od.*1 →
  eviction_policy s ≠ "LRU" →
  cache (state_of (access operation a s)) = cache s
  ∧ reports (state_of (access operation a s)) = reports s ++ [Hit a].
Proof.
  intros Hbs Hns Hod Hin Hp. rewrite (access_hit_step _ _ _ od) by done.
  case_decide; [done |]. erewrite bind_ok by reflexivity. cbv beta.
  destruct (when_write_keeps_cache_and_reports operation
    ((a `div` block_size s) `mod` num_sets s) (a `div` (block_size s * num_sets s))
    (set_reports (reports s ++ [Hit a]) s)) as [Hc Hr].
  split; [exact Hc | exact Hr].
Qed.

Lemma hit_keeps_order_unless_LRU_witness :
  0 < block_size (after [("R", 0); ("R", 32)] (fresh "FIFO" None))
  ∧ 0 < num_sets (after [("R", 0); ("R", 32)] (fresh "FIFO" None))
  ∧ eviction_policy (after [("R", 0); ("R", 32)] (fresh "FIFO" None)) ≠ "LRU"
  ∧ cache (state_of (access "W" 0 (after [("R", 0); ("R", 32)] (fresh "FIFO" None))))
    = cache (after [("R", 0); ("R", 32)] (fresh "FIFO" None))
  ∧ reports (state_of (access "W" 0 (after [("R", 0); ("R", 32)] (fresh "FIFO" None))))
    = reports (after [("R", 0); ("R", 32)] (fresh "FIFO" None)) ++ [Hit 0].
Proof.
  split; [reflexivity |]. split; [reflexivity |]. split; [discriminate |].
  apply (hit_keeps_order_unless_LRU "W" 0 _ [(0, 0); (1, 32)]);
    [reflexivity | reflexivity | reflexivity | | discriminate].
  cbn. rewrite elem_of_cons. left. reflexivity.
Defined.

(** X15: a hit under LRU moves the entry of the tag, with the block
    address it maps to, to the newest position of its set and keeps the
    other entries in their order; this happens for every operation code. *)
Theorem hit_under_LRU_moves_to_back (operation : string) (a : Z) (s : CacheLevel)
    (od : OrderedDict.t) :
  0 < block_size s → 0 < num_sets s →
  cache s !! ((a `div` block_size s) `mod` num_sets s) = Some od →
  a `div` (block_size s * num_sets s) ∈ od.*1 →
  eviction_policy s = "LRU" →
  ∃ v, (a `div` (block_size s * num_sets s), v) ∈ od
     ∧ cache (state_of (access operation a s))
       = <[(a `div` block_size s) `mod` num_sets s
           := OrderedDict.without (a `div` (block_size s * num_sets s)) od
              ++ [(a `div` (block_size s * num_sets s), v)]]> (cache s)
     ∧ reports (state_of (access operation a s)) = reports s ++ [Hit a].
Proof.
  intros Hbs Hns Hod Hin Hp. rewrite (access_hit_step _ _ _ od) by done.
  case_decide; [| done].
  destruct (move_to_end_eq _ od Hin) as (v & Hv & Hmove).
  exists v. split; [exact Hv |].
  destruct (cache_move_to_end_ok _ _ (set_reports (reports s ++ [Hit a]) s) od Hod Hin)
    as (od' & Hmove' & Hstep).
  rewrite Hmove in Hmove'. injection Hmove' as <-.
  rewrite (bind_ok _ _ _ _ _ Hstep).
  pose proof (when_write_keeps_cache_and_reports operation
    ((a `div` block_size s) `mod` num_sets s) (a `div` (block_size s * num_sets s))
    (set_cache
       (<[(a `div` block_size s) `mod` num_sets s
          := OrderedDict.without (a `div` (block_size s * num_sets s)) od
             ++ [(a `div` (block_size s * num_sets s), v)]]>
          (cache (set_reports (reports s ++ [Hit a]) s)))
       (set_reports (reports s ++ [Hit a]) s))) as [Hc Hr].
  split; [exact Hc | exact Hr].
Qed.

Lemma hit_under_LRU_moves_to_back_witness :
  0 < block_size (after [("R", 0); ("R", 32)] (fresh "LRU" None))
  ∧ 0 < num_sets (after [("R", 0); ("R", 32)] (fresh "LRU" None))
  ∧ eviction_policy (after [("R", 0); ("R", 32)] (fresh "LRU" None)) = "LRU"
  ∧ ∃ v, (0 `div` (16 * 2), v) ∈ [(0, 0); (1, 32)]
     ∧ cache (state_of (access "R" 0 (after [("R", 0); ("R", 32)] (fresh "LRU" None))))
       = <[(0 `div` 16) `mod` 2
           := OrderedDict.without (0 `div` (16 * 2)) [(0, 0); (1, 32)]
              ++ [(0 `div` (16 * 2), v)]]>
           (cache (after [("R", 0); ("R", 32)] (fresh "LRU" None)))
     ∧ reports (state_of (access "R" 0 (after [("R", 0); ("R", 32)] (fresh "LRU" None))))
       = reports (after [("R", 0); ("R", 32)] (fresh "LRU" None)) ++ [Hit 0].
Proof.
  split; [reflexivity |]. split; [reflexivity |]. split; [reflexivity |].
  apply (hit_under_LRU_moves_to_back "R" 0 _ [(0, 0); (1, 32)]);
    [reflexivity | reflexivity | reflexivity | | reflexivity].
  cbn. rewrite elem_of_cons. left. reflexivity.
Defined.

Lemma bind_ok_raised {A B} (m : M A) (k : A → M B) (s : CacheLevel)
    (e : Py.exn) (s' : CacheLevel) :
  (∃ a s1, m s = Ok a s1 ∧ k a s1 = Raised e s') → bind m k s = Raised e s'.
Proof. intros (a & s1 & Hm & Hk). unfold bind. by rewrite Hm. Qed.

Lemma bind_ok_inv {A B} (m : M A) (k : A → M B) (s s' : CacheLevel) (b : B) :
  bind m k s = Ok b s' → ∃ a s1, m s = Ok a s1 ∧ k a s1 = Ok b s'.
Proof.
  unfold bind. destruct (m s) as [a s1|e s1]; [| done]. intros H. by exists a, s1.
Qed.

(** X16: a miss in a set with a free way -- or in any set when the policy
    is not one of FIFO, LRU, MRU, since [evict] then removes nothing --
    reports the miss and appends the tag, mapped to the block address of
    the access, at the newest position of the set. *)
Theorem miss_appends_block (operation : string) (a : Z) (s : CacheLevel)
    (od : OrderedDict.t) :
  0 < block_size s → 0 < num_sets s →
  cache s !! ((a `div` block_size s) `mod` num_sets s) = Some od →
  (a `div` (block_size s * num_sets s)) ∉ od.*1 →
  Z.of_nat (length od) < associativity s ∨ ¬ known_policy (eviction_policy s) →
  cache (state_of (access operation a s))
  = <[(a `div` block_size s) `mod` num_sets s
      := od ++ [(a `div` (block_size s * num_sets s), a - a `mod` block_size s)]]>
      (cache s)
  ∧ reports (state_of (access operation a s)) = reports s ++ [Miss a].
Proof.
  intros Hbs Hns Hod Hnin Hroom. rewrite (access_miss_step _ _ _ od) by done.
  assert (((when decide (associativity s ≤ Z.of_nat (length od)) then
              evict ((a `div` block_size s) `mod` num_sets s))
             (set_reports (reports s ++ [Miss a]) s))
          = Ok tt (set_reports (reports s ++ [Miss a]) s)) as Hevict.
  { case_decide; [| done]. destruct Hroom as [? | Hp]; [lia |].
    by apply evict_unknown_noop. }
  rewrite (bind_ok _ _ _ _ _ Hevict).
  erewrite bind_ok by (apply cache_setitem_ok; exact Hod). cbv beta.
  rewrite setitem_new by done.
  destruct (when_write_keeps_cache_and_reports operation
    ((a `div` block_size s) `mod` num_sets s) (a `div` (block_size s * num_sets s))
    (set_cache
       (<[(a `div` block_size s) `mod` num_sets s
          := od ++ [(a `div` (block_size s * num_sets s), a - a `mod` block_size s)]]>
          (cache (set_reports (reports s ++ [Miss a]) s)))
       (set_reports (reports s ++ [Miss a]) s))) as [Hc Hr].
  split; [exact Hc | exact Hr].
Qed.

Lemma miss_appends_block_witness :
  0 < block_size (after [("R", 0)] (fresh "MRU" None))
  ∧ 0 < num_sets (after [("R", 0)] (fresh "MRU" None))
  ∧ cache (state_of (access "W" 40 (after [("R", 0)] (fresh "MRU" None))))
    = <[(40 `div` 16) `mod` 2 := [(0, 0)] ++ [(40 `div` (16 * 2), 40 - 40 `mod` 16)]]>
        (cache (after [("R", 0)] (fresh "MRU" None)))
  ∧ reports (state_of (access "W" 40 (after [("R", 0)] (fresh "MRU" None))))
    = reports (after [("R", 0)] (fresh "MRU" None)) ++ [Miss 40].
Proof.
  split; [reflexivity |]. split; [reflexivity |].
  apply (miss_appends_block "W" 40 (after [("R", 0)] (fresh "MRU" None)) [(0, 0)]);
    [reflexivity | reflexivity | reflexivity | | left; reflexivity].
  cbn. rewrite list_elem_of_singleton. discriminate.
Defined.

(** A miss in a full set under a recognised policy stops on the unbound
    name of [evict], after the miss has been reported. *)
Lemma access_full_set_name_error (operation : string) (a : Z) (s : CacheLevel)
    (od : OrderedDict.t) :
  0 < block_size s → 0 < num_sets s →
  cache s !! ((a `div` block_size s) `mod` num_sets s) = Some od →
  (a `div` (block_size s * num_sets s)) ∉ od.*1 →
  known_policy (eviction_policy s) →
  od ≠ [] → associativity s ≤ Z.of_nat (length od) →
  access operation a s
  = Raised (Py.NameError "victim_tag") (set_reports (reports s ++ [Miss a]) s).
Proof.
  intros Hbs Hns Hod Hnin Hp Hne Hfull.
  rewrite (access_miss_step _ _ _ od) by done.
  case_decide; [| lia]. apply bind_raised.
  unfold evict. apply bind_ok_raised.
  destruct (select_victim_nonempty ((a `div` block_size s) `mod` num_sets s)
              (set_reports (reports s ++ [Miss a]) s) od Hp Hod Hne) as [v Hsel].
  exists (Some v). eexists. split; [exact Hsel |]. reflexivity.
Qed.

(** X17: a miss in a full, non-empty set under FIFO, LRU or MRU never
    completes: the access reports the miss, then raises
    [NameError] for [victim_tag]; the sets and the dirty bits are as
    before and the new block is not inserted. *)
Theorem miss_in_full_set_raises (operation : string) (a : Z) (s : CacheLevel)
    (od : OrderedDict.t) :
  0 < block_size s → 0 < num_sets s →
  cache s !! ((a `div` block_size s) `mod` num_sets s) = Some od →
  (a `div` (block_size s * num_sets s)) ∉ od.*1 →
  known_policy (eviction_policy s) →
  od ≠ [] → associativity s ≤ Z.of_nat (length od) →
  access operation a s
  = Raised (Py.NameError "victim_tag") (set_reports (reports s ++ [Miss a]) s).
Proof. apply access_full_set_name_error. Qed.

Lemma miss_in_full_set_raises_witness :
  0 < block_size (after [("R", 0); ("R", 32)] (fresh "LRU" None))
  ∧ 0 < num_sets (after [("R", 0); ("R", 32)] (fresh "LRU" None))
  ∧ known_policy (eviction_policy (after [("R", 0); ("R", 32)] (fresh "LRU" None)))
  ∧ access "R" 64 (after [("R", 0); ("R", 32)] (fresh "LRU" None))
    = Raised (Py.NameError "victim_tag")
        (set_reports
           (reports (after [("R", 0); ("R", 32)] (fresh "LRU" None)) ++ [Miss 64])
           (after [("R", 0); ("R", 32)] (fresh "LRU" None))).
Proof.
  split; [reflexivity |]. split; [reflexivity |].
  split; [right; left; reflexivity |].
  apply (miss_in_full_set_raises "R" 64 _ [(0, 0); (1, 32)]);
    [reflexivity | reflexivity | reflexivity | | right; left; reflexivity
    | discriminate | discriminate].
  cbn. rewrite !elem_of_cons, elem_of_nil. intros [?|[?|[]]]; discriminate.
Defined.

(** ** Properties kept by every access *)

(** A property kept by the four mutations of [access] is kept by
    [access]. *)
Lemma access_preserves (P : CacheLevel → Prop) (operation : string) (a : Z) :
  (∀ r, preserves P (emit r)) →
  (∀ i tag, preserves P (cache_move_to_end i tag)) →
  (∀ i tag b, preserves P (cache_setitem i tag b)) →
  (∀ i tag, preserves P (dirty_add i tag)) →
  preserves P (access operation a).
Proof.
  intros Hemit Hmove Hset Hdirty. unfold access.
  apply preserves_bind; [apply readonly_preserves, readonly_index | intros idx].
  apply preserves_bind; [apply readonly_preserves, readonly_tag | intros tag].
  apply preserves_bind;
    [apply readonly_preserves, readonly_block_address | intros b].
  apply preserves_bind; [apply preserves_cache_getitem | intros od].
  destruct (OrderedDict.contains tag od).
  - apply preserves_bind; [apply Hemit | intros _].
    apply preserves_bind; [apply preserves_gets | intros policy].
    apply preserves_bind.
    + case_decide; [apply Hmove | apply preserves_ret].
    + intros _. case_decide; [apply Hdirty | apply preserves_ret].
  - apply preserves_bind; [apply Hemit | intros _].
    apply preserves_bind; [apply preserves_cache_getitem | intros od'].
    apply preserves_bind; [apply preserves_gets | intros assoc].
    apply preserves_bind.
    + case_decide; [apply readonly_preserves, readonly_evict | apply preserves_ret].
    + intros _. apply preserves_bind; [apply Hset | intros _].
      case_decide; [apply Hdirty | apply preserves_ret].
Qed.

Lemma resident_store (i tag j : Z) (od od' : OrderedDict.t) (s : CacheLevel) :
  cache s !! j = Some od → (∀ t, t ∈ od.*1 → t ∈ od'.*1) →
  resident i tag s → resident i tag (set_cache (<[j := od']> (cache s)) s).
Proof.
  intros Hod Hsub (od0 & Hod0 & Hin). unfold resident. cbn.
  destruct (decide (j = i)) as [->|Hne].
  - rewrite lookup_insert_eq. exists od'. split; [done |].
    apply Hsub. by simplify_eq.
  - rewrite lookup_insert_ne by done. by exists od0.
Qed.

Lemma resident_move_to_end (i tag j k : Z) :
  preserves (resident i tag) (cache_move_to_end j k).
Proof.
  intros s Hs. unfold cache_move_to_end, bind, cache_getitem.
  destruct (cache s !! j) as [od|] eqn:Hod; [| done].
  destruct (OrderedDict.move_to_end k od) as [od'|] eqn:E; [| done].
  cbn. apply (resident_store _ _ _ od); [done | | done].
  intros t. by rewrite (move_to_end_keys _ _ _ _ E).
Qed.

Lemma resident_setitem (i tag j k b : Z) :
  preserves (resident i tag) (cache_setitem j k b).
Proof.
  intros s Hs. unfold cache_setitem, bind, cache_getitem.
  destruct (cache s !! j) as [od|] eqn:Hod; [| done].
  cbn. apply (resident_store _ _ _ od); [done | | done].
  intros t. rewrite setitem_keys. tauto.
Qed.

Lemma resident_access (i tag : Z) (operation : string) (a : Z) :
  preserves (resident i tag) (access operation a).
Proof.
  apply access_preserves.
  - by intros r s Hs.
  - intros. apply resident_move_to_end.
  - intros. apply resident_setitem.
  - intros j k. apply (frame_dirty_add (resident i tag)). by intros d s Hs.
Qed.

(** X18: no access ever removes a block: a tag resident in a set before
    an access, whatever its operation, address and outcome, is resident
    in that set after it. *)
Theorem access_never_removes_a_block (cache_index tag : Z) (operation : string)
    (a : Z) (s : CacheLevel) :
  resident cache_index tag s →
  resident cache_index tag (state_of (access operation a s)).
Proof. apply resident_access. Qed.

Lemma access_never_removes_a_block_witness :
  resident 0 0 (after [("W", 0); ("R", 32)] (fresh "FIFO" None))
  ∧ resident 0 0
      (state_of (access "R" 64 (after [("W", 0); ("R", 32)] (fresh "FIFO" None)))).
Proof.
  assert (resident 0 0 (after [("W", 0); ("R", 32)] (fresh "FIFO" None))) as Hres.
  { exists [(0, 0); (1, 32)]. split; [reflexivity |].
    cbn. rewrite elem_of_cons. left. reflexivity. }
  split; [exact Hres |].
  apply (access_never_removes_a_block 0 0 "R" 64 _ Hres).
Defined.

Lemma configuration_access (operation : string) (a : Z) (s : CacheLevel) :
  configuration (state_of (access operation a s)) = configuration s.
Proof. by apply (frame_access (λ s', configuration s' = configuration s)). Qed.

Lemma configuration_geometry (s s' : CacheLevel) :
  configuration s' = configuration s →
  block_size s' = block_size s ∧ num_sets s' = num_sets s
  ∧ associativity s' = associativity s ∧ eviction_policy s' = eviction_policy s.
Proof. unfold configuration. intros [= _ _ _ _ ? ? ? _ ?]. done. Qed.

(** A completed access leaves its block resident. *)
Lemma access_ok_resident (operation : string) (a : Z) (s s' : CacheLevel) :
  0 < block_size s → 0 < num_sets s →
  access operation a s = Ok tt s' →
  resident ((a `div` block_size s) `mod` num_sets s)
    (a `div` (block_size s * num_sets s)) s'.
Proof.
  intros Hbs Hns Hrun.
  destruct (cache s !! ((a `div` block_size s) `mod` num_sets s)) as [od|] eqn:Hod.
  2: { unfold access in Hrun. revert Hrun.
       mstep index_ok. mstep tag_ok. mstep block_address_ok.
       erewrite bind_raised; [done |]. unfold cache_getitem. by rewrite Hod. }
  destruct (decide (a `div` (block_size s * num_sets s) ∈ od.*1)) as [Hin|Hnin].
  - pose proof (resident_access _ (a `div` (block_size s * num_sets s))
                  operation a s (ex_intro _ od (conj Hod Hin))) as Hres.
    by rewrite Hrun in Hres.
  - rewrite (access_miss_step _ _ _ od) in Hrun by done.
    apply bind_ok_inv in Hrun as (u1 & s1 & Hevict & Hrun).
    apply bind_ok_inv in Hrun as (u2 & s2 & Hset & Hrun).
    assert (s1 = set_reports (reports s ++ [Miss a]) s) as ->.
    { revert Hevict.
      destruct (decide (associativity s ≤ Z.of_nat (length od)));
        [| intros Heq; unfold ret in Heq; by simplify_eq].
      intros Hevict. pose proof (readonly_evict
        ((a `div` block_size s) `mod` num_sets s)
        (set_reports (reports s ++ [Miss a]) s)) as Hro.
      by rewrite Hevict in Hro. }
    rewrite (cache_setitem_ok _ _ _ _ od) in Hset by exact Hod.
    apply (f_equal state_of) in Hset. cbn [state_of] in Hset. subst s2.
    match type of Hrun with ?m ?s2 = _ =>
      assert (resident ((a `div` block_size s) `mod` num_sets s)
                (a `div` (block_size s * num_sets s)) (state_of (m s2))) as Hres
    end.
    { case_decide; [| cbn].
      - apply (frame_dirty_add (resident _ _)); [by intros d0 s0 Hs0 |].
        eexists. cbn. split; [apply lookup_insert_eq |].
        apply setitem_keys. by left.
      - eexists. cbn. split; [apply lookup_insert_eq |].
        apply setitem_keys. by left. }
    by rewrite Hrun in Hres.
Qed.

(** X19: after a completed access, any access to an address of the same
    block is a hit: it reports the hit and nothing else. *)
Theorem access_again_hits (operation operation' : string) (a a' : Z)
    (s s' : CacheLevel) :
  0 < block_size s → 0 < num_sets s →
  access operation a s = Ok tt s' →
  a' `div` block_size s = a `div` block_size s →
  reports (state_of (access operation' a' s')) = reports s' ++ [Hit a'].
Proof.
  intros Hbs Hns Hrun Hblock.
  pose proof (access_ok_resident _ _ _ _ Hbs Hns Hrun) as (od & Hod & Hin).
  pose proof (configuration_access operation a s) as Hcfg.
  rewrite Hrun in Hcfg. cbn in Hcfg.
  apply configuration_geometry in Hcfg as (Hbs' & Hns' & _ & _).
  assert (a' `div` (block_size s * num_sets s) = a `div` (block_size s * num_sets s))
    as Htag by (rewrite <- !Z.div_div by lia; by rewrite Hblock).
  rewrite (access_hit_step operation' a' s' od);
    [| lia | lia | by rewrite Hbs', Hns', Hblock | by rewrite Hbs', Hns', Htag].
  match goal with |- context [bind ?m ?k ?s1] =>
    assert (cache (state_of (m s1)) = cache (state_of (m s1))
            ∧ reports (state_of (m s1)) = reports s1) as [_ Hr1]
  end.
  { split; [done |]. case_decide; [| done].
    by apply (frame_cache_move_to_end (λ s0, reports s0 = reports _)). }
  unfold bind at 1.
  match goal with |- context [match ?m ?s1 with _ => _ end] =>
    destruct (m s1) as [u s2|e s2] eqn:E end.
  - cbn in Hr1.
    destruct (when_write_keeps_cache_and_reports operation'
      ((a' `div` block_size s') `mod` num_sets s')
      (a' `div` (block_size s' * num_sets s')) s2) as [_ Hr2].
    rewrite Hr2, Hr1. reflexivity.
  - cbn in Hr1 |- *. rewrite Hr1. reflexivity.
Qed.

Lemma access_again_hits_witness :
  0 < block_size (fresh "LRU" None) ∧ 0 < num_sets (fresh "LRU" None)
  ∧ access "R" 40 (fresh "LRU" None) = Ok tt (after [("R", 40)] (fresh "LRU" None))
  ∧ 45 `div` block_size (fresh "LRU" None) = 40 `div` block_size (fresh "LRU" None)
  ∧ reports (state_of (access "W" 45 (after [("R", 40)] (fresh "LRU" None))))
    = reports (after [("R", 40)] (fresh "LRU" None)) ++ [Hit 45].
Proof.
  split; [reflexivity |]. split; [reflexivity |].
  split; [vm_compute; reflexivity |]. split; [reflexivity |].
  apply (access_again_hits "R" "W" 40 45 (fresh "LRU" None));
    [reflexivity | reflexivity | vm_compute; reflexivity | reflexivity].
Defined.

(** ** Dirty bits *)

Lemma dirty_add_inv (i tag : Z) (s s' : CacheLevel) :
  dirty_add i tag s = Ok tt s' →
  ∃ d, dirty_bits s !! i = Some d
       ∧ s' = set_dirty_bits (<[i := {[tag]} ∪ d]> (dirty_bits s)) s.
Proof.
  unfold dirty_add, bind, dirty_getitem.
  destruct (dirty_bits s !! i) as [d|]; [| done].
  intros Heq. exists d. split; [done |].
  apply (f_equal state_of) in Heq. by cbn in Heq.
Qed.

(** The state before the final marking of a completed write. *)
Lemma access_write_inv (a : Z) (s s' : CacheLevel) :
  0 < block_size s → 0 < num_sets s →
  access "W" a s = Ok tt s' →
  ∃ s2, configuration s2 = configuration s
        ∧ dirty_add ((a `div` block_size s) `mod` num_sets s)
            (a `div` (block_size s * num_sets s)) s2 = Ok tt s'.
Proof.
  intros Hbs Hns Hrun.
  destruct (cache s !! ((a `div` block_size s) `mod` num_sets s)) as [od|] eqn:Hod.
  2: { unfold access in Hrun. revert Hrun.
       mstep index_ok. mstep tag_ok. mstep block_address_ok.
       erewrite bind_raised; [done |]. unfold cache_getitem. by rewrite Hod. }
  destruct (decide (a `div` (block_size s * num_sets s) ∈ od.*1)) as [Hin|Hnin].
  - rewrite (access_hit_step _ _ _ od) in Hrun by done.
    apply bind_ok_inv in Hrun as (u & s2 & Hmove & Hrun).
    exists s2. split.
    + match type of Hmove with ?m ?s1 = _ =>
        assert (configuration (state_of (m s1)) = configuration s) as Hcfg
      end.
      { destruct (decide (eviction_policy s = "LRU")); [| done].
        by apply (frame_cache_move_to_end (λ s0, configuration s0 = configuration s)). }
      by rewrite Hmove in Hcfg.
    + revert Hrun. by destruct (decide ("W" = "W")).
  - rewrite (access_miss_step _ _ _ od) in Hrun by done.
    apply bind_ok_inv in Hrun as (u1 & s1 & Hevict & Hrun).
    apply bind_ok_inv in Hrun as (u2 & s2 & Hset & Hrun).
    exists s2. split.
    + assert (configuration s1 = configuration s) as Hcfg1.
      { revert Hevict.
        destruct (decide (associativity s ≤ Z.of_nat (length od)));
          [| intros Heq; unfold ret in Heq; by simplify_eq].
        intros Hevict. pose proof (readonly_evict
          ((a `div` block_size s) `mod` num_sets s)
          (set_reports (reports s ++ [Miss a]) s)) as Hro.
        rewrite Hevict in Hro. cbn in Hro. by subst s1. }
      pose proof (frame_cache_setitem (λ s0, configuration s0 = configuration s)
        ltac:(done) ((a `div` block_size s) `mod` num_sets s)
        (a `div` (block_size s * num_sets s)) (a - a `mod` block_size s)
        s1 Hcfg1) as Hcfg2. cbv beta in Hcfg2.
      by rewrite Hset in Hcfg2.
    + revert Hrun. by destruct (decide ("W" = "W")).
Qed.

(** X20: a completed write access leaves its block dirty: [is_dirty]
    then returns true for the address written. *)
Theorem write_marks_dirty (a : Z) (s s' : CacheLevel) :
  0 < block_size s → 0 < num_sets s →
  access "W" a s = Ok tt s' →
  is_dirty a s' = Ok true s'.
Proof.
  intros Hbs Hns Hrun.
  destruct (access_write_inv a s s' Hbs Hns Hrun) as (s2 & Hcfg & Hadd).
  apply configuration_geometry in Hcfg as (Hbs2 & Hns2 & _ & _).
  apply dirty_add_inv in Hadd as (d & Hd & ->).
  unfold is_dirty.
  erewrite bind_ok by (apply index_ok; cbn; lia). cbv beta.
  erewrite bind_ok by (apply tag_ok; cbn; lia). cbv beta.
  cbn [block_size num_sets set_dirty_bits]. rewrite Hbs2, Hns2.
  erewrite bind_ok by (apply dirty_getitem_ok; cbn; apply lookup_insert_eq).
  cbv beta. unfold ret. f_equal. apply bool_decide_eq_true.
  apply elem_of_union_l, elem_of_singleton. reflexivity.
Qed.

Lemma write_marks_dirty_witness :
  0 < block_size (fresh "MRU" None) ∧ 0 < num_sets (fresh "MRU" None)
  ∧ access "W" 40 (fresh "MRU" None) = Ok tt (after [("W", 40)] (fresh "MRU" None))
  ∧ is_dirty 40 (after [("W", 40)] (fresh "MRU" None))
    = Ok true (after [("W", 40)] (fresh "MRU" None)).
Proof.
  split; [reflexivity |]. split; [reflexivity |].
  split; [vm_compute; reflexivity |].
  apply (write_marks_dirty 40 (fresh "MRU" None));
    [reflexivity | reflexivity | vm_compute; reflexivity].
Defined.

(** ** Dirty implies resident *)

Lemma bind_establishes {A B} (P Q : CacheLevel → Prop) (m : M A) (k : A → M B)
    (s : CacheLevel) :
  P s → preserves P m →
  (∀ s1, P s1 → Q s1) →
  (∀ a s1, P s1 → Q (state_of (k a s1))) →
  Q (state_of (bind m k s)).
Proof.
  intros Hs Hm Hraise Hk. specialize (Hm s Hs). unfold bind.
  destruct (m s) as [a s1|e s1]; cbn in Hm |- *; auto.
Qed.

Lemma dirty_resident_store (j : Z) (od od' : OrderedDict.t) (s : CacheLevel) :
  cache s !! j = Some od → (∀ t, t ∈ od.*1 → t ∈ od'.*1) →
  dirty_resident s → dirty_resident (set_cache (<[j := od']> (cache s)) s).
Proof.
  intros Hod Hsub Hs i od0 d. cbn.
  destruct (decide (j = i)) as [->|Hne].
  - rewrite lookup_insert_eq. intros [= <-] Hd t Ht.
    apply Hsub. by eapply Hs.
  - rewrite lookup_insert_ne by done. apply Hs.
Qed.

Lemma dirty_resident_move_to_end (j k : Z) :
  preserves dirty_resident (cache_move_to_end j k).
Proof.
  intros s Hs. unfold cache_move_to_end, bind, cache_getitem.
  destruct (cache s !! j) as [od|] eqn:Hod; [| done].
  destruct (OrderedDict.move_to_end k od) as [od'|] eqn:E; [| done].
  cbn. apply (dirty_resident_store _ od); [done | | done].
  intros t. by rewrite (move_to_end_keys _ _ _ _ E).
Qed.

Lemma dirty_resident_dirty_add (i tag : Z) (s : CacheLevel) :
  dirty_resident s → resident i tag s →
  dirty_resident (state_of (dirty_add i tag s)).
Proof.
  intros Hs (od & Hod & Hin). unfold dirty_add, bind, dirty_getitem.
  destruct (dirty_bits s !! i) as [d|] eqn:Hd; [| done].
  cbn. intros j od0 d0. cbn.
  destruct (decide (i = j)) as [<-|Hne].
  - rewrite lookup_insert_eq. intros Hod0 [= <-] t.
    rewrite elem_of_union, elem_of_singleton. intros [->|Ht].
    + by simplify_eq.
    + by eapply Hs.
  - rewrite lookup_insert_ne by done. apply Hs.
Qed.

Lemma dirty_resident_setitem_then_write (operation : string) (i tag b : Z)
    (s : CacheLevel) :
  dirty_resident s →
  dirty_resident
    (state_of ((cache_setitem i tag b ;;;
                when decide (operation = "W") then dirty_add i tag) s)).
Proof.
  intros Hs. unfold cache_setitem at 1. unfold bind at 1. unfold bind at 1.
  unfold cache_getitem.
  destruct (cache s !! i) as [od|] eqn:Hod; [| done]. cbn [cache_store modify].
  assert (dirty_resident
            (set_cache (<[i := OrderedDict.setitem tag b od]> (cache s)) s)) as Hs2.
  { apply (dirty_resident_store _ od); [done | | done].
    intros t. rewrite setitem_keys. tauto. }
  case_decide; [| done].
  apply dirty_resident_dirty_add; [done |].
  eexists. cbn. split; [apply lookup_insert_eq |].
  apply setitem_keys. by left.
Qed.

Lemma dirty_resident_access (operation : string) (a : Z) :
  preserves dirty_resident (access operation a).
Proof.
  intros s Hs. unfold access.
  ro_step (readonly_index a). ro_step (readonly_tag a).
  ro_step (readonly_block_address a).
  match goal with |- context [cache_getitem ?i] => ro_step (readonly_cache_getitem i) end.
  match goal with H : cache_getitem _ _ = _ |- _ =>
    apply cache_getitem_inv in H; rename H into Hod end.
  destruct (OrderedDict.contains _ _) eqn:Hc.
  - apply contains_true in Hc.
    unfold report_hit. mstep emit_ok. mstep @gets_ok.
    match goal with Hod : cache _ !! ?i = Some ?od, Hc : ?t ∈ _ |- _ =>
      apply (bind_establishes (λ s0, dirty_resident s0 ∧ resident i t s0))
    end.
    + split; [exact Hs |]. eexists. split; [exact Hod | exact Hc].
    + case_decide; [| apply preserves_ret].
      intros s0 [H1 H2]. split;
        [by apply dirty_resident_move_to_end | by apply resident_move_to_end].
    + tauto.
    + intros _ s1 [H1 H2]. case_decide; [| done].
      by apply dirty_resident_dirty_add.
  - unfold report_miss. mstep emit_ok.
    erewrite bind_ok by (apply cache_getitem_ok; exact Hod). cbv beta.
    mstep @gets_ok.
    apply (bind_establishes dirty_resident).
    + exact Hs.
    + case_decide; [apply readonly_preserves, readonly_evict | apply preserves_ret].
    + done.
    + intros _ s1 Hs1. by apply dirty_resident_setitem_then_write.
Qed.

Lemma dirty_resident_run (trace : list (string * Z)) :
  preserves dirty_resident (run trace).
Proof.
  induction trace as [|[operation a] trace IH]; cbn [run].
  - apply preserves_ret.
  - apply preserves_bind; [apply dirty_resident_access | by intros _].
Qed.

Lemma init_dirty_resident (size block_size associativity : Z)
    (eviction_policy write_policy level_name : string)
    (higher_level lower_level : option nat) (s : CacheLevel) :
  __init__ size block_size associativity eviction_policy write_policy
    level_name higher_level lower_level = inr s →
  dirty_resident s.
Proof.
  unfold __init__.
  destruct (Py.floordiv _ _) as [e|ns]; [done |]. intros [= <-].
  intros i od d. cbn. rewrite !init_sets_lookup.
  case_decide; [| done]. intros _ [= <-] t Ht. by apply not_elem_of_empty in Ht.
Qed.

(** X21: dirty implies resident.  On a constructed level, whatever its
    parameters and policy, in the state any trace of accesses leaves
    behind every tag in a dirty set is resident in the set of the same
    index. *)
Theorem dirty_implies_resident (size block_size associativity : Z)
    (eviction_policy write_policy level_name : string)
    (higher_level lower_level : option nat) (s : CacheLevel)
    (trace : list (string * Z)) :
  __init__ size block_size associativity eviction_policy write_policy
    level_name higher_level lower_level = inr s →
  dirty_resident (after trace s).
Proof.
  intros Hinit. apply dirty_resident_run.
  by eapply init_dirty_resident.
Qed.

Lemma dirty_implies_resident_witness :
  __init__ 64 16 2 "RANDOM" "WB" "L1" None None = inr (fresh "RANDOM" None)
  ∧ dirty_resident
      (after [("W", 0); ("W", 32); ("R", 64); ("W", 16)] (fresh "RANDOM" None)).
Proof.
  split; [reflexivity |].
  apply (dirty_implies_resident 64 16 2 "RANDOM" "WB" "L1" None None). reflexivity.
Defined.

(** X22: [invalidate] keeps dirty-implies-resident: it clears the dirty
    bit of the block it removes, whether it returns or raises. *)
Theorem invalidate_keeps_dirty_resident (block_address : Z) (s : CacheLevel) :
  dirty_resident s → dirty_resident (state_of (invalidate block_address s)).
Proof.
  intros Hs. unfold invalidate.
  ro_step (readonly_index block_address). ro_step (readonly_tag block_address).
  match goal with |- context [cache_getitem ?i] => ro_step (readonly_cache_getitem i) end.
  match goal with H : cache_getitem _ _ = _ |- _ =>
    apply cache_getitem_inv in H; rename H into Hod end.
  destruct (OrderedDict.contains _ _) eqn:Hc; [| done].
  apply contains_true in Hc.
  unfold bind at 1. unfold dirty_getitem at 1.
  match goal with |- context [dirty_bits s !! ?i] =>
    destruct (dirty_bits s !! i) as [d|] eqn:Hd; [| done] end.
  assert (∀ (d' : gset Z) r (i t : Z) (od : OrderedDict.t),
            cache s !! i = Some od → dirty_bits s !! i = Some d →
            d' = d ∖ {[t]} →
            dirty_resident
              (set_reports r
                 (set_cache (<[i := OrderedDict.without t od]> (cache s))
                    (set_dirty_bits (<[i := d']> (dirty_bits s)) s)))) as Hfinal.
  { intros d' r i t od Hod' Hd' -> j od0 d0. cbn.
    destruct (decide (i = j)) as [<-|Hne].
    - rewrite !lookup_insert_eq. intros [= <-] [= <-] t0.
      rewrite elem_of_difference, elem_of_singleton, without_keys.
      intros [Ht0 Hne]. split; [done |]. by eapply Hs.
    - rewrite !lookup_insert_ne by done. apply Hs. }
  case_bool_decide as Hdirty.
  - unfold report_writeback, report_eviction.
    erewrite bind_ok; [| erewrite bind_ok by apply emit_ok;
                         apply dirty_remove_ok; [exact Hd | exact Hdirty]].
    erewrite bind_ok by (apply cache_pop_ok; [exact Hod | exact Hc]).
    rewrite emit_ok. cbn [state_of].
    eapply (Hfinal _ _ _ _ _ Hod Hd eq_refl).
  - unfold report_eviction.
    erewrite bind_ok by reflexivity.
    erewrite bind_ok by (apply cache_pop_ok; [exact Hod | exact Hc]).
    rewrite emit_ok. cbn [state_of].
    intros j od0 d0. cbn.
    match goal with Hod : cache s !! ?i = Some _ |- _ =>
      destruct (decide (i = j)) as [<-|Hne] end.
    + rewrite lookup_insert_eq. intros [= <-] Hd0 t0 Ht0.
      rewrite without_keys. split; [| by eapply Hs].
      intros ->. by simplify_eq.
    + rewrite lookup_insert_ne by done. apply Hs.
Qed.

Lemma invalidate_keeps_dirty_resident_witness :
  dirty_resident (after [("W", 0); ("W", 32)] (fresh "FIFO" None))
  ∧ dirty_resident
      (state_of (invalidate 0 (after [("W", 0); ("W", 32)] (fresh "FIFO" None)))).
Proof.
  assert (dirty_resident (after [("W", 0); ("W", 32)] (fresh "FIFO" None))) as Hs.
  { unfold after. apply dirty_resident_run.
    apply (init_dirty_resident 64 16 2 "FIFO" "WB" "L1" None None). reflexivity. }
  split; [exact Hs |].
  apply (invalidate_keeps_dirty_resident 0 _ Hs).
Defined.

(** ** The possible failures of a trace *)

Lemma known_policy_dec (p : string) : known_policy p ∨ ¬ known_policy p.
Proof.
  unfold known_policy.
  destruct (decide (p = "FIFO")); [tauto |].
  destruct (decide (p = "LRU")); [tauto |].
  destruct (decide (p = "MRU")); tauto.
Qed.

Lemma well_formed_access (operation : string) (a : Z) :
  preserves well_formed (access operation a).
Proof.
  assert (∀ i od s, well_formed s →
            well_formed (set_cache (<[i := od]> (cache s)) s)) as Hstore.
  { intros i od s (Hbs & Hns & Hsets). split; [done |]. split; [done |].
    intros j Hj. destruct (Hsets j Hj) as [H1 H2]. split; [| done].
    cbn. apply lookup_insert_is_Some'. by right. }
  apply access_preserves.
  - by intros r s Hs.
  - intros i tag s Hs. unfold cache_move_to_end, bind, cache_getitem.
    destruct (cache s !! i) as [od|]; [| done].
    destruct (OrderedDict.move_to_end tag od); [| done]. by apply Hstore.
  - intros i tag b s Hs. unfold cache_setitem, bind, cache_getitem.
    destruct (cache s !! i) as [od|]; [| done]. by apply Hstore.
  - intros i tag s Hs. unfold dirty_add, bind, dirty_getitem.
    destruct (dirty_bits s !! i) as [d|]; [| done].
    destruct Hs as (Hbs & Hns & Hsets). split; [done |]. split; [done |].
    intros j Hj. destruct (Hsets j Hj) as [H1 H2]. split; [done |].
    cbn. apply lookup_insert_is_Some'. by right.
Qed.

Lemma access_unknown_policy_completes (operation : string) (a : Z) (s : CacheLevel)
    (od : OrderedDict.t) (d : gset Z) :
  0 < block_size s → 0 < num_sets s →
  cache s !! ((a `div` block_size s) `mod` num_sets s) = Some od →
  dirty_bits s !! ((a `div` block_size s) `mod` num_sets s) = Some d →
  (a `div` (block_size s * num_sets s)) ∉ od.*1 →
  ¬ known_policy (eviction_policy s) →
  ∃ s', access operation a s = Ok tt s'.
Proof.
  intros Hbs Hns Hod Hd Hnin Hp.
  rewrite (access_miss_step _ _ _ od) by done.
  erewrite bind_ok; [| case_decide; [by apply evict_unknown_noop | reflexivity]].
  erewrite bind_ok by (apply cache_setitem_ok; exact Hod). cbv beta.
  case_decide; [| by eexists].
  erewrite dirty_add_ok by exact Hd. by eexists.
Qed.

(** One access on a well-formed level with at least one way either
    completes or stops on the unbound name of [evict]. *)
Lemma access_outcome (operation : string) (a : Z) (s : CacheLevel) :
  well_formed s → 0 < associativity s →
  (∃ s', access operation a s = Ok tt s')
  ∨ (known_policy (eviction_policy s)
     ∧ ∃ s', access operation a s = Raised (Py.NameError "victim_tag") s').
Proof.
  intros (Hbs & Hns & Hsets) Hassoc.
  destruct (Hsets ((a `div` block_size s) `mod` num_sets s))
    as [[od Hod] [d Hd]]; [by apply Z.mod_pos_bound |].
  destruct (decide (a `div` (block_size s * num_sets s) ∈ od.*1)) as [Hin|Hnin].
  { left. apply (access_completes _ _ _ od d); auto. }
  destruct (decide (Z.of_nat (length od) < associativity s)) as [Hroom|Hfull].
  { left. apply (access_completes _ _ _ od d); auto. }
  destruct (known_policy_dec (eviction_policy s)) as [Hp|Hp].
  - right. split; [exact Hp |]. eexists.
    apply (access_full_set_name_error _ _ _ od); try done; [| lia].
    intros ->. cbn in Hfull. lia.
  - left. by apply (access_unknown_policy_completes _ _ _ od d).
Qed.

Lemma run_outcome (trace : list (string * Z)) (s : CacheLevel) :
  well_formed s → 0 < associativity s →
  (∃ s', run trace s = Ok tt s')
  ∨ (known_policy (eviction_policy s)
     ∧ ∃ s', run trace s = Raised (Py.NameError "victim_tag") s').
Proof.
  revert s. induction trace as [|[operation a] trace IH]; intros s Hs Hassoc.
  { left. by eexists. }
  cbn [run].
  destruct (access_outcome operation a s Hs Hassoc) as [[s1 H1]|[Hp [s1 H1]]].
  - rewrite (bind_ok _ _ _ _ _ H1).
    pose proof (well_formed_access operation a s Hs) as Hs1.
    pose proof (configuration_access operation a s) as Hcfg.
    rewrite H1 in Hs1, Hcfg. cbn in Hs1, Hcfg.
    apply configuration_geometry in Hcfg as (_ & _ & Hassoc1 & Hp1).
    rewrite <- Hp1. apply IH; [done | lia].
  - right. split; [exact Hp |]. exists s1. by rewrite (bind_raised _ _ _ _ _ H1).
Qed.

Lemma init_well_formed (sz bs assoc : Z) (policy wp name : string)
    (hi lo : option nat) (s : CacheLevel) :
  0 < bs → 0 < assoc → bs * assoc ≤ sz →
  __init__ sz bs assoc policy wp name hi lo = inr s →
  well_formed s ∧ associativity s = assoc ∧ eviction_policy s = policy.
Proof.
  intros Hbs Hassoc Hsize. unfold __init__, Py.floordiv.
  case_decide; [nia |]. intros [= <-]. cbn.
  split; [| done]. split; [done |]. split.
  - cbn. apply Z.div_str_pos. nia.
  - intros i Hi. cbn in *. rewrite !init_sets_lookup.
    case_decide; [| lia]. split; by eexists.
Qed.

(** X23: on a level constructed with a positive block size, a positive
    associativity and room for at least one set, a trace of accesses can
    stop in one way only, the [NameError] of [evict], and only when the
    policy is FIFO, LRU or MRU; no access raises [KeyError],
    [ZeroDivisionError] or [StopIteration], and under any other policy
    every trace completes. *)
Theorem trace_outcomes (size block_size associativity : Z)
    (eviction_policy write_policy level_name : string)
    (higher_level lower_level : option nat) (s : CacheLevel)
    (trace : list (string * Z)) :
  0 < block_size → 0 < associativity → block_size * associativity ≤ size →
  __init__ size block_size associativity eviction_policy write_policy
    level_name higher_level lower_level = inr s →
  (∃ s', run trace s = Ok tt s')
  ∨ (known_policy eviction_policy
     ∧ ∃ s', run trace s = Raised (Py.NameError "victim_tag") s').
Proof.
  intros Hbs Hassoc Hsize Hinit.
  destruct (init_well_formed _ _ _ _ _ _ _ _ _ Hbs Hassoc Hsize Hinit)
    as (Hwf & Ha & Hp).
  rewrite <- Hp. apply run_outcome; [done | lia].
Qed.

Lemma trace_outcomes_witness :
  0 < 16 ∧ 0 < 2 ∧ 16 * 2 ≤ 64
  ∧ __init__ 64 16 2 "FIFO" "WB" "L1" None None = inr (fresh "FIFO" None)
  ∧ ((∃ s', run [("W", 0); ("R", 32); ("R", 64)] (fresh "FIFO" None) = Ok tt s')
     ∨ (known_policy "FIFO"
        ∧ ∃ s', run [("W", 0); ("R", 32); ("R", 64)] (fresh "FIFO" None)
                = Raised (Py.NameError "victim_tag") s')).
Proof.
  split; [reflexivity |]. split; [reflexivity |]. split; [discriminate |].
  split; [reflexivity |].
  apply (trace_outcomes 64 16 2 "FIFO" "WB" "L1" None None);
    [reflexivity | reflexivity | discriminate | reflexivity].
Defined.
